(** * text2pinyin: the line annotator of [pinyin_converter_fixed.py]

    A shallow embedding of [add_pinyin_preserve_format_optimized], the
    conversion function called by [process_file], of [process_file] itself
    and of [add_pinyin_preserve_format_working], a variant that is in the
    file and is not called, followed by the properties of the annotation
    lines they emit.

    Python [str] values are sequences of Unicode code points; they are
    modelled as lists of [N].  The [while] loop of the converter is indexed,
    so it is embedded with an index, a fuel argument and an explicit outcome
    for [IndexError]; the closed forms used in the proofs are derived from
    that loop, not assumed. *)

From Stdlib Require Import NArith Ascii Lia.
From stdpp Require Import base strings list gmap.

Local Open Scope N_scope.
Local Open Scope nat_scope.

(** ** Strings as code point sequences *)

Abbreviation char := N (only parsing).
Abbreviation str := (list N) (only parsing).

Module Char.
Definition newline : char := 0x0a%N.
Definition tab : char := 0x09%N.
Definition space : char := 0x20%N.
(** 你 (U+4F60) and 好 (U+597D) *)
Definition ni : char := 0x4f60%N.
Definition hao : char := 0x597d%N.
(** ǐ (U+01D0) and ǎ (U+01CE) *)
Definition i_caron : char := 0x01d0%N.
Definition a_caron : char := 0x01ce%N.
End Char.

(** Code points of an ASCII literal. *)
Fixpoint lit (s : string) : str :=
  match s with
  | EmptyString => []
  | String a s' => N_of_ascii a :: lit s'
  end.

(** ['一' <= char <= '鿿'] *)
Definition is_chinese (c : char) : bool :=
  ((0x4e00 <=? c) && (c <=? 0x9fff))%N.

(** [str.isspace] on a one-character string, which is also the whitespace
    test of [str.strip] and [str.rstrip] without arguments. *)
Definition isspace (c : char) : bool :=
  (((0x09 <=? c) && (c <=? 0x0d)) || ((0x1c <=? c) && (c <=? 0x20))
   || (c =? 0x85) || (c =? 0xa0) || (c =? 0x1680)
   || ((0x2000 <=? c) && (c <=? 0x200a))
   || (c =? 0x2028) || (c =? 0x2029) || (c =? 0x202f) || (c =? 0x205f)
   || (c =? 0x3000))%N.

(** [s.lstrip()], [s.rstrip()] and [s.strip()] *)
Fixpoint lstrip (s : str) : str :=
  match s with
  | [] => []
  | c :: s' => if isspace c then lstrip s' else s
  end.

Fixpoint rstrip (s : str) : str :=
  match s with
  | [] => []
  | c :: s' =>
      match rstrip s' with
      | [] => if isspace c then [] else [c]
      | t => c :: t
      end
  end.

Definition strip (s : str) : str := rstrip (lstrip s).

(** Truth value of a Python string: [not s] holds of the empty string only. *)
Definition py_not (s : str) : bool :=
  match s with
  | [] => true
  | _ :: _ => false
  end.

(** [s.split('\n')] *)
Fixpoint split_lines (s : str) : list str :=
  match s with
  | [] => [[]]
  | c :: s' =>
      if (c =? Char.newline)%N then [] :: split_lines s'
      else
        match split_lines s' with
        | [] => [[c]]
        | l :: ls => (c :: l) :: ls
        end
  end.

(** ['\n'.join(ls)] *)
Fixpoint join_lines (ls : list str) : str :=
  match ls with
  | [] => []
  | [l] => l
  | l :: ls' => l ++ Char.newline :: join_lines ls'
  end.

(** ** Outcomes of a run *)

Inductive exn : Type :=
  | IndexError
  | FileNotFoundError.

Inductive outcome (A : Type) : Type :=
  | Done (a : A)
  | Raise (e : exn)
  | OutOfFuel.

Arguments Done {A} a.
Arguments Raise {A} e.
Arguments OutOfFuel {A}.

Definition bind {A B : Type} (m : outcome A) (k : A -> outcome B) : outcome B :=
  match m with
  | Done a => k a
  | Raise e => Raise e
  | OutOfFuel => OutOfFuel
  end.

Notation "'do' x <- m ; k" := (bind m (fun x => k))
  (at level 10, x name, m at level 100, k at level 200).

(** ** The converter *)

Section Converter.

(** [pinyin(char, style=Style.TONE, heteronym=False)[0][0]] of pypinyin:
    the token of one character. *)
Variable pinyin : char -> str.

(** What one iteration of the [while] loop appends to [pinyin_line]. *)
Definition append_char (pinyin_line : str) (c : char) : str :=
  if is_chinese c then
    let py := pinyin c in
    pinyin_line ++ (py ++ [Char.space; Char.space])
  else if isspace c then
    pinyin_line ++ [c]
  else
    pinyin_line ++ repeat Char.space (length [c]).

(** [while i < len(line): char = line[i]; ...; i += 1] *)
Fixpoint while_pinyin (fuel : nat) (line : str) (i : nat) (pinyin_line : str)
  : outcome str :=
  match fuel with
  | O => OutOfFuel
  | S fuel' =>
      if i <? length line then
        match line !! i with
        | None => Raise IndexError
        | Some c => while_pinyin fuel' line (S i) (append_char pinyin_line c)
        end
      else Done pinyin_line
  end.

(** The body of [for line in lines], as a transformer of [result_lines]. *)
Definition line_step (fuel : nat) (result_lines : list str) (line : str)
  : outcome (list str) :=
  if py_not (strip line) then Done (result_lines ++ [line])
  else
    let has_chinese := existsb is_chinese line in
    if negb has_chinese then Done (result_lines ++ [line])
    else
      do pinyin_line <- while_pinyin fuel line 0 [];
      Done ((result_lines ++ [rstrip pinyin_line]) ++ [line]).

Fixpoint for_lines (fuel : nat) (lines : list str) (result_lines : list str)
  : outcome (list str) :=
  match lines with
  | [] => Done result_lines
  | line :: rest =>
      do result_lines' <- line_step fuel result_lines line;
      for_lines fuel rest result_lines'
  end.

Definition add_pinyin_preserve_format_optimized (fuel : nat) (chinese_text : str)
  : outcome str :=
  let lines := split_lines chinese_text in
  do result_lines <- for_lines fuel lines [];
  Done (join_lines result_lines).

End Converter.

(** ** The buffer variant

    [add_pinyin_preserve_format_working] is in the file and is not called by
    [process_file].  It writes the tokens into a buffer of the length of the
    line.  Its [for] loops run over finite sequences and are embedded by
    recursion on them; the two subscripts keep their [IndexError]. *)

Section Working.

Variable pinyin : char -> str.

(** [for i, char in enumerate(line): if ...: pinyin_mapping.append((i, py))],
    from index [i] on. *)
Fixpoint collect_mapping (i : nat) (chars : str) (pinyin_mapping : list (nat * list N))
  : list (nat * list N) :=
  match chars with
  | [] => pinyin_mapping
  | c :: rest =>
      collect_mapping (S i) rest
        (if is_chinese c then pinyin_mapping ++ [(i, pinyin c)] else pinyin_mapping)
  end.

(** [for j in js: pinyin_line[pos + j] = py[j]] *)
Fixpoint place_token (js : list nat) (pos : nat) (py : str) (pinyin_line : str)
  : outcome str :=
  match js with
  | [] => Done pinyin_line
  | j :: js' =>
      match py !! j with
      | None => Raise IndexError
      | Some x =>
          if pos + j <? length pinyin_line
          then place_token js' pos py (<[pos + j := x]> pinyin_line)
          else Raise IndexError
      end
  end.

(** [for pos, py in pinyin_mapping: ...]; [len(line) - pos] is not negative
    for the positions of a mapping, so the subtraction of [nat] is that of
    Python here. *)
Fixpoint place_all (line : str) (pinyin_mapping : list (nat * list N))
  (pinyin_line : str) : outcome str :=
  match pinyin_mapping with
  | [] => Done pinyin_line
  | (pos, py) :: rest =>
      let py_len := length py in
      do pinyin_line' <-
        place_token (seq 0 (min py_len (length line - pos))) pos py pinyin_line;
      place_all line rest pinyin_line'
  end.

Definition working_line_step (result_lines : list str) (line : str)
  : outcome (list str) :=
  if py_not (strip line) then Done (result_lines ++ [line])
  else
    let pinyin_mapping := collect_mapping 0 line [] in
    match pinyin_mapping with
    | [] => Done (result_lines ++ [line])
    | _ :: _ =>
        let pinyin_line := repeat Char.space (length line) in
        do pinyin_line' <- place_all line pinyin_mapping pinyin_line;
        Done ((result_lines ++ [pinyin_line']) ++ [line])
    end.

Fixpoint working_for_lines (lines : list str) (result_lines : list str)
  : outcome (list str) :=
  match lines with
  | [] => Done result_lines
  | line :: rest =>
      do result_lines' <- working_line_step result_lines line;
      working_for_lines rest result_lines'
  end.

Definition add_pinyin_preserve_format_working (chinese_text : str) : outcome str :=
  let lines := split_lines chinese_text in
  do result_lines <- working_for_lines lines [];
  Done (join_lines result_lines).

End Working.

(** ** Files and the console *)

(** The part of the world that [process_file] touches: the text files by
    path, and what has been printed, one entry per [print] call. *)
Record world : Type := World {
  files : gmap (list N) (list N);
  console : list (list N)
}.

(** A command runs in a world and leaves a world behind, also when it
    raises. *)
Definition io (A : Type) : Type := world -> outcome A * world.

Definition io_bind {A B : Type} (m : io A) (k : A -> io B) : io B :=
  fun w =>
    match m w with
    | (Done a, w') => k a w'
    | (Raise e, w') => (Raise e, w')
    | (OutOfFuel, w') => (OutOfFuel, w')
    end.

Notation "'run' x <- m ; k" := (io_bind m (fun x => k))
  (at level 10, x name, m at level 100, k at level 200).
Notation "'exec' m ; k" := (io_bind m (fun _ => k))
  (at level 10, m at level 100, k at level 200).

Definition lift {A : Type} (m : outcome A) : io A := fun w => (m, w).

(** [with open(path, 'r', encoding='utf-8') as f: f.read()] *)
Definition open_read (path : str) : io str :=
  fun w =>
    match files w !! path with
    | Some text => (Done text, w)
    | None => (Raise FileNotFoundError, w)
    end.

(** [with open(path, 'w', encoding='utf-8') as f: f.write(text)] *)
Definition open_write (path : str) (text : str) : io unit :=
  fun w => (Done tt, World (<[path := text]> (files w)) (console w)).

Definition print (s : str) : io unit :=
  fun w => (Done tt, World (files w) (console w ++ [s])).

(** [try: body except ...: handler] *)
Definition try_except {A : Type} (body : io A) (handler : exn -> io A) : io A :=
  fun w =>
    match body w with
    | (Raise e, w') => handler e w'
    | r => r
    end.

(** [str(e)] of the [IndexError] of a string subscript, the one exception
    of this model that reaches [except Exception as e]. *)
Definition index_error_str : str := lit "string index out of range".

Section ProcessFile.

Variable pinyin : char -> str.

(** [os.path.splitext] *)
Variable splitext : str -> str * str.

Definition process_file (fuel : nat) (input_file : str) (output_file : option str)
  : io unit :=
  try_except
    (run chinese_text <- open_read input_file;
     run pinyin_text <-
       lift (add_pinyin_preserve_format_optimized pinyin fuel chinese_text);
     let output_file :=
       match output_file with
       | None =>
           let '(name, ext) := splitext input_file in
           name ++ lit "_pinyin" ++ ext
       | Some path => path
       end in
     exec open_write output_file pinyin_text;
     exec print (lit "Successfully processed: " ++ input_file);
     exec print (lit "Output saved as: " ++ output_file);
     exec print (Char.newline :: lit "Preview:");
     exec print (repeat 0x2d%N 40);
     exec print pinyin_text;
     print (repeat 0x2d%N 40))
    (fun e =>
       match e with
       | FileNotFoundError =>
           print (lit "Error: Input file '" ++ input_file ++ lit "' not found.")
       | IndexError => print (lit "Error processing file: " ++ index_error_str)
       end).

End ProcessFile.

(** ** The other variants

    The five other conversion functions of the file.  None of them is
    called by [process_file]. *)

(** [s.ljust(width)] *)
Definition ljust (s : str) (width : nat) : str :=
  s ++ repeat Char.space (width - length s).

(** [for i, char in enumerate(line)] runs over these pairs. *)
Definition enumerate (line : str) : list (nat * N) :=
  combine (seq 0 (length line)) line.

(** [i = 0; while i < len(line): char = line[i]; <body>; i += 1], the body
    a function of the variables it assigns, of [i] and of [char]. *)
Fixpoint while_index {St : Type} (body : St -> nat -> N -> St) (fuel : nat)
  (line : str) (i : nat) (s : St) : outcome St :=
  match fuel with
  | O => OutOfFuel
  | S fuel' =>
      if i <? length line then
        match line !! i with
        | None => Raise IndexError
        | Some c => while_index body fuel' line (S i) (body s i c)
        end
      else Done s
  end.

(** [for line in lines: <step>], the step a transformer of [result_lines]. *)
Fixpoint for_each_line (step : list (list N) -> list N -> outcome (list (list N)))
  (lines : list str) (result_lines : list str) : outcome (list str) :=
  match lines with
  | [] => Done result_lines
  | line :: rest =>
      do result_lines' <- step result_lines line;
      for_each_line step rest result_lines'
  end.

(** [lst[a:b] = xs] for indices that are not negative. *)
Definition slice_assign (lst : str) (a b : nat) (xs : str) : str :=
  let a' := min a (length lst) in
  let b' := max a' (min b (length lst)) in
  take a' lst ++ xs ++ drop b' lst.

Section Variants.

Variable pinyin : char -> str.

(** *** [add_pinyin_preserve_format] *)

(** The body of its [while] loop, on [(pinyin_line, original_line)]. *)
Definition first_body (st : list N * list N) (i : nat) (c : N) : list N * list N :=
  let '(pinyin_line, original_line) := st in
  if is_chinese c then
    let py := pinyin c in
    (pinyin_line ++ ljust py (length [c] + 2),
     original_line ++ ljust [c] (length [c] + 2))
  else
    (pinyin_line ++ repeat Char.space (length [c]), original_line ++ [c]).

Definition first_line_step (fuel : nat) (result_lines : list str) (line : str)
  : outcome (list str) :=
  do st <- while_index first_body fuel line 0 ([], []);
  let pinyin_line := st.1 in
  let result_lines :=
    if existsb is_chinese line then result_lines ++ [rstrip pinyin_line]
    else result_lines in
  Done (result_lines ++ [line]).

Definition add_pinyin_preserve_format (fuel : nat) (chinese_text : str)
  : outcome str :=
  let lines := split_lines chinese_text in
  do result_lines <- for_each_line (first_line_step fuel) lines [];
  Done (join_lines result_lines).

(** *** [add_pinyin_preserve_format_new] *)

(** [pinyin_parts.append((i, py))] for the Chinese characters. *)
Definition parts_body (pinyin_parts : list (nat * list N)) (i : nat) (c : N)
  : list (nat * list N) :=
  if is_chinese c then pinyin_parts ++ [(i, pinyin c)] else pinyin_parts.

(** The body of the loop that builds [pinyin_str]. *)
Definition padded_body (pinyin_str : list N) (c : N) : list N :=
  if is_chinese c then pinyin_str ++ (pinyin c ++ [Char.space; Char.space])
  else pinyin_str ++ repeat Char.space (length [c]).

(** The body of the loop that builds the [pinyin_line] that is emitted. *)
Definition ljust_body (width : nat) (pinyin_line : list N) (c : N) : list N :=
  if is_chinese c then pinyin_line ++ ljust (pinyin c) width
  else pinyin_line ++ repeat Char.space (length [c]).

(** [pinyin_parts], the first [pinyin_line], [original_line] and
    [pinyin_str] are computed and not used. *)
Definition new_line_step (fuel : nat) (result_lines : list str) (line : str)
  : outcome (list str) :=
  if py_not (strip line) then Done (result_lines ++ [line])
  else
    do pinyin_parts <- while_index parts_body fuel line 0 [];
    let pinyin_line := repeat Char.space (length line) in
    let original_line := line in
    let pinyin_str := fold_left padded_body line [] in
    let pinyin_line := fold_left (fun acc c => ljust_body (length [c] + 2) acc c) line [] in
    let result_lines :=
      if existsb is_chinese line then result_lines ++ [rstrip pinyin_line]
      else result_lines in
    Done (result_lines ++ [line]).

Definition add_pinyin_preserve_format_new (fuel : nat) (chinese_text : str)
  : outcome str :=
  let lines := split_lines chinese_text in
  do result_lines <- for_each_line (new_line_step fuel) lines [];
  Done (join_lines result_lines).

(** *** [add_pinyin_preserve_format_corrected]

    It has [for] loops only and no subscript. *)

(** The body of the second loop, on [(pinyin_line, original_line)]. *)
Definition corrected_body (st : list N * list N) (c : N) : list N * list N :=
  let '(pinyin_line, original_line) := st in
  if is_chinese c then
    let py := pinyin c in
    (pinyin_line ++ ljust py 6, original_line ++ ljust [c] 6)
  else
    (pinyin_line ++ [c], original_line ++ [c]).

(** The body of the first loop, on [(pinyin_chars, original_chars)]. *)
Definition chars_body (st : list (list N) * list (list N)) (c : N)
  : list (list N) * list (list N) :=
  let '(pinyin_chars, original_chars) := st in
  if is_chinese c then
    let py := pinyin c in
    (pinyin_chars ++ [py], original_chars ++ [[c]])
  else
    (pinyin_chars ++ [[Char.space]], original_chars ++ [[c]]).

(** The lists [pinyin_chars] and [original_chars] of the first loop are
    computed and not used. *)
Definition corrected_line_step (result_lines : list str) (line : str) : list str :=
  if py_not (strip line) then result_lines ++ [line]
  else
    let pinyin_chars := (fold_left chars_body line ([], [])).1 in
    let original_chars := (fold_left chars_body line ([], [])).2 in
    let '(pinyin_line, original_line) := fold_left corrected_body line ([], []) in
    let result_lines :=
      if existsb is_chinese line then result_lines ++ [rstrip pinyin_line]
      else result_lines in
    result_lines ++ [rstrip original_line].

Definition add_pinyin_preserve_format_corrected (chinese_text : str) : str :=
  let lines := split_lines chinese_text in
  let result_lines := fold_left corrected_line_step lines [] in
  join_lines result_lines.

(** *** [add_pinyin_preserve_format_final] *)

Definition final_line_step (fuel : nat) (result_lines : list str) (line : str)
  : outcome (list str) :=
  if py_not (strip line) then Done (result_lines ++ [line])
  else
    do pinyin_line <- while_index (fun acc _ c => ljust_body 2 acc c) fuel line 0 [];
    let result_lines :=
      if existsb is_chinese line then result_lines ++ [rstrip pinyin_line]
      else result_lines in
    Done (result_lines ++ [line]).

Definition add_pinyin_preserve_format_final (fuel : nat) (chinese_text : str)
  : outcome str :=
  let lines := split_lines chinese_text in
  do result_lines <- for_each_line (final_line_step fuel) lines [];
  Done (join_lines result_lines).

(** *** [add_pinyin_preserve_format_best] *)

(** [pinyin(s, style=Style.TONE, heteronym=False)] on a whole string: a
    list of lists of readings. *)
Variable pinyin_all : list N -> list (list (list N)).

(** [[p[0] for p in pinyin_list]] *)
Fixpoint first_readings (pinyin_list : list (list (list N))) : outcome (list (list N)) :=
  match pinyin_list with
  | [] => Done []
  | p :: rest =>
      match p with
      | [] => Raise IndexError
      | py :: _ =>
          do values <- first_readings rest;
          Done (py :: values)
      end
  end.

(** The first loop, on [(ch_chars, ch_positions)]. *)
Definition chinese_body (st : list N * list nat) (ic : nat * N) : list N * list nat :=
  let '(ch_chars, ch_positions) := st in
  let '(i, c) := ic in
  if is_chinese c then (ch_chars ++ [c], ch_positions ++ [i])
  else (ch_chars, ch_positions).

(** The body of [for pos, py_val in zip(ch_positions, pinyin_values)]; its
    last [if] has [pass] for a body and a guarded subscript. *)
Definition slice_body (line : list N) (pinyin_line : list N) (e : nat * list N)
  : list N :=
  let '(pos, py_val) := e in
  let py_len := length py_val in
  let line_len := length line in
  let end_pos := min (pos + py_len) line_len in
  slice_assign pinyin_line pos end_pos (take (end_pos - pos) py_val).

Definition best_line_step (result_lines : list str) (line : str)
  : outcome (list str) :=
  if py_not (strip line) then Done (result_lines ++ [line])
  else
    let '(ch_chars, ch_positions) := fold_left chinese_body (enumerate line) ([], []) in
    match ch_chars with
    | [] => Done (result_lines ++ [line])
    | _ :: _ =>
        let pinyin_list := pinyin_all ch_chars in
        do pinyin_values <- first_readings pinyin_list;
        let pinyin_line := repeat Char.space (length line) in
        let pinyin_line :=
          fold_left (slice_body line) (combine ch_positions pinyin_values) pinyin_line in
        let pinyin_str := pinyin_line in
        Done ((result_lines ++ [pinyin_str]) ++ [line])
    end.

Definition add_pinyin_preserve_format_best (chinese_text : str) : outcome str :=
  let lines := split_lines chinese_text in
  do result_lines <- for_each_line best_line_step lines [];
  Done (join_lines result_lines).

End Variants.

(** ** Data of the examples *)

(** A lookup with the two tokens of the running example, 你 ↦ nǐ and
    好 ↦ hǎo; every other character is its own token. *)
Definition demo_pinyin (c : char) : str :=
  if (c =? Char.ni)%N then lit "n" ++ [Char.i_caron]
  else if (c =? Char.hao)%N then lit "h" ++ [Char.a_caron] ++ lit "o"
  else [c].

Definition ni_hao_world : str := [Char.ni; Char.hao] ++ lit ", world".

(** The extension is what follows the last dot, when there is one after
    the first character; enough for the examples below. *)
Definition demo_splitext (path : str) : str * str :=
  match path with
  | [] => ([], [])
  | c :: rest =>
      match list_find (fun d => bool_decide (d = 0x2e%N)) (reverse rest) with
      | Some (k, _) =>
          (c :: take (length rest - S k) rest, drop (length rest - S k) rest)
      | None => (path, [])
      end
  end.

Definition demo_world : world :=
  World {[ lit "in.txt" := [Char.ni; Char.hao] ]} [].

(** ** The layout of an annotation line

    Definitions for the statements below; what the loops compute is related
    to them by the lemmas that follow. *)

Section Layout.

Variable pinyin : char -> str.

(** The segment of the annotation that one character of the line yields. *)
Definition cell (c : char) : str :=
  if is_chinese c then pinyin c ++ [Char.space; Char.space]
  else if isspace c then [c]
  else [Char.space].

Definition cells (s : str) : str := flat_map cell s.

(** Column of the annotation at which the segment of [line[i]] begins. *)
Definition column_of (line : str) (i : nat) : nat := length (cells (take i line)).

(** By how much a character moves everything to its right. *)
Definition shift (c : char) : nat :=
  if is_chinese c then length (pinyin c) + 1 else 0.

(** Column [k] of the annotation of [line] holds a character of a token. *)
Definition in_token (line : str) (k : nat) : Prop :=
  exists i c,
    line !! i = Some c /\ is_chinese c = true /\
    column_of line i <= k < column_of line i + length (pinyin c).

(** The lines that one input line adds to [result_lines]. *)
Definition line_out (line : str) : list str :=
  if existsb is_chinese line then [rstrip (cells line); line] else [line].

(** The mapping of the characters [chars], the first of them at index [i]. *)
Fixpoint mapping_of (i : nat) (chars : str) : list (nat * list N) :=
  match chars with
  | [] => []
  | c :: rest =>
      if is_chinese c then (i, pinyin c) :: mapping_of (S i) rest
      else mapping_of (S i) rest
  end.

End Layout.

(** [annotated lines out]: [out] lists the lines of [lines] in their order,
    each one once and as it is, some of them preceded by one more line. *)
Inductive annotated : list (list N) -> list (list N) -> Prop :=
  | annotated_nil : annotated [] []
  | annotated_plain line lines out :
      annotated lines out -> annotated (line :: lines) (line :: out)
  | annotated_pair ann line lines out :
      annotated lines out -> annotated (line :: lines) (ann :: line :: out).

(** ** Definitions for the further properties *)

Definition no_newline (l : list N) : Prop := Forall (fun c => c <> Char.newline) l.


(** What an indexed loop over the characters [chars], the first of them at
    index [i], makes of [s]. *)
Fixpoint fold_index {St : Type} (body : St -> nat -> N -> St) (i : nat)
  (chars : list N) (s : St) : St :=
  match chars with
  | [] => s
  | c :: rest => fold_index body (S i) rest (body s i c)
  end.

(** A line ends in no whitespace character. *)
Definition ends_tidy (line : list N) : Prop :=
  forall c, last line = Some c -> isspace c = false.

Section VariantLayout.

Variable pinyin : char -> str.

(** Column [k] is in the span of the token of a qualifying character when
    every token starts at the column of its character. *)
Definition in_span (line : list N) (k : nat) : Prop :=
  exists i c,
    line !! i = Some c /\ is_chinese c = true /\ i <= k < i + length (pinyin c).

(** The segment of a character when tokens are padded to [width]. *)
Definition ljust_cell (width : nat) (c : N) : list N :=
  if is_chinese c then ljust (pinyin c) width else [Char.space].

(** The lines that one input line adds when tokens are padded to [width]. *)
Definition ljust_out (width : nat) (line : list N) : list (list N) :=
  if existsb is_chinese line then [rstrip (flat_map (ljust_cell width) line); line]
  else [line].

(** The segments of a character in the two lines of
    [add_pinyin_preserve_format_corrected]. *)
Definition corrected_cell (c : N) : list N :=
  if is_chinese c then ljust (pinyin c) 6 else [c].

Definition spread_cell (c : N) : list N :=
  if is_chinese c then ljust [c] 6 else [c].

(** [ch] is a space or a character of the token of a qualifying character
    of [line]. *)
Definition space_or_token (line : list N) (ch : N) : Prop :=
  ch = Char.space \/
  exists c, c ∈ line /\ is_chinese c = true /\ ch ∈ pinyin c.

(** The buffer of the two buffer variants, by slices. *)
Definition buffer_of (line : list N) : list N :=
  fold_left (slice_body line) (mapping_of pinyin 0 line)
    (repeat Char.space (length line)).

Definition buffer_out (line : list N) : list (list N) :=
  if existsb is_chinese line then [buffer_of line; line] else [line].

End VariantLayout.

(** * Properties *)

(** ** Runs of the examples *)

Example demo_run :
  add_pinyin_preserve_format_optimized demo_pinyin 10 (ni_hao_world ++ [Char.newline] ++ lit "hi")
  = Done (lit "n" ++ [Char.i_caron] ++ lit "  h" ++ [Char.a_caron] ++ lit "o"
          ++ [Char.newline] ++ ni_hao_world ++ [Char.newline] ++ lit "hi").
Proof. vm_compute. reflexivity. Qed.

Example demo_process_file :
  process_file demo_pinyin demo_splitext 5 (lit "in.txt") None demo_world
  = (Done tt,
     let out := lit "n" ++ [Char.i_caron] ++ lit "  h" ++ [Char.a_caron] ++ lit "o"
                ++ [Char.newline; Char.ni; Char.hao] in
     World (<[ lit "in_pinyin.txt" := out ]> {[ lit "in.txt" := [Char.ni; Char.hao] ]})
           [ lit "Successfully processed: in.txt";
             lit "Output saved as: in_pinyin.txt";
             Char.newline :: lit "Preview:";
             repeat 0x2d%N 40;
             out;
             repeat 0x2d%N 40 ]).
Proof. vm_compute. reflexivity. Qed.

Example working_ni :
  add_pinyin_preserve_format_working demo_pinyin [Char.ni]
  = Done ([0x6e%N] ++ Char.newline :: [Char.ni]).
Proof. vm_compute. reflexivity. Qed.

Example working_ni_hao_world :
  add_pinyin_preserve_format_working demo_pinyin ni_hao_world
  = Done ([0x6e%N; 0x68%N; Char.a_caron; 0x6f%N] ++ repeat Char.space 5
          ++ Char.newline :: ni_hao_world).
Proof. vm_compute. reflexivity. Qed.

(** ** Closed forms derived from the loops *)

Section ConverterFacts.

Variable pinyin : char -> str.

Lemma append_char_cell acc c : append_char pinyin acc c = acc ++ cell pinyin c.
Proof.
  unfold append_char, cell.
  destruct (is_chinese c); [reflexivity|].
  destruct (isspace c); reflexivity.
Qed.

Lemma cells_app s t : cells pinyin (s ++ t) = cells pinyin s ++ cells pinyin t.
Proof. apply flat_map_app. Qed.

Lemma cells_split (line : str) i c :
  line !! i = Some c ->
  cells pinyin line = cells pinyin (take i line) ++ cell pinyin c ++ cells pinyin (drop (S i) line).
Proof.
  intros Hi.
  rewrite <- (take_drop_middle line i c Hi) at 1.
  rewrite cells_app. reflexivity.
Qed.

Lemma while_pinyin_cells fuel : forall (line : str) i acc,
  i <= length line ->
  length line - i < fuel ->
  while_pinyin pinyin fuel line i acc = Done (acc ++ cells pinyin (drop i line)).
Proof.
  induction fuel as [|fuel IH]; intros line i acc Hle Hfuel; [lia|].
  cbn [while_pinyin]. destruct (Nat.ltb_spec i (length line)) as [Hlt|Hge].
  - destruct (lookup_lt_is_Some_2 line i Hlt) as [c Hc].
    rewrite Hc, IH by lia.
    rewrite append_char_cell, (drop_S line c i Hc), <- app_assoc.
    reflexivity.
  - rewrite drop_ge by lia. rewrite app_nil_r. reflexivity.
Qed.

Lemma while_pinyin_starved fuel : forall (line : str) i acc,
  fuel <= length line - i ->
  while_pinyin pinyin fuel line i acc = OutOfFuel.
Proof.
  induction fuel as [|fuel IH]; intros line i acc Hfuel; [reflexivity|].
  cbn [while_pinyin]. destruct (Nat.ltb_spec i (length line)) as [Hlt|Hge]; [|lia].
  destruct (lookup_lt_is_Some_2 line i Hlt) as [c Hc].
  rewrite Hc. apply IH. lia.
Qed.

Lemma while_pinyin_from_start fuel (line : str) :
  length line < fuel ->
  while_pinyin pinyin fuel line 0 [] = Done (cells pinyin line).
Proof.
  intros Hfuel. rewrite while_pinyin_cells by lia. reflexivity.
Qed.

Lemma length_cells (s : str) :
  length (cells pinyin s) = length s + sum_list (map (shift pinyin) s).
Proof.
  induction s as [|c s IH]; [reflexivity|].
  change (cells pinyin (c :: s)) with (cell pinyin c ++ cells pinyin s).
  rewrite length_app, IH. simpl. unfold cell, shift.
  destruct (is_chinese c).
  - rewrite length_app. simpl. lia.
  - destruct (isspace c); simpl; lia.
Qed.

End ConverterFacts.

(** ** Whitespace, stripping, splitting and joining *)

Lemma is_chinese_range c :
  is_chinese c = true <-> (0x4e00 <= c <= 0x9fff)%N.
Proof.
  unfold is_chinese. rewrite andb_true_iff, !N.leb_le. reflexivity.
Qed.

Lemma chinese_not_space c : is_chinese c = true -> isspace c = false.
Proof.
  rewrite is_chinese_range. intros Hc.
  apply not_true_is_false. unfold isspace. intros Hs.
  repeat rewrite ?orb_true_iff, ?andb_true_iff, ?N.leb_le, ?N.eqb_eq in Hs.
  lia.
Qed.

Lemma py_not_rstrip s : py_not (rstrip s) = forallb isspace s.
Proof.
  induction s as [|c s IH]; [reflexivity|].
  simpl. destruct (rstrip s) as [|d t].
  - simpl in IH. rewrite <- IH. destruct (isspace c); reflexivity.
  - simpl in IH. rewrite <- IH, andb_false_r. reflexivity.
Qed.

Lemma forallb_isspace_lstrip s : forallb isspace (lstrip s) = forallb isspace s.
Proof.
  induction s as [|c s IH]; [reflexivity|].
  simpl. destruct (isspace c) eqn:Hc; simpl; [exact IH|].
  rewrite Hc. reflexivity.
Qed.

Lemma py_not_strip s : py_not (strip s) = forallb isspace s.
Proof. unfold strip. rewrite py_not_rstrip. apply forallb_isspace_lstrip. Qed.

Lemma chinese_line_not_blank s :
  existsb is_chinese s = true -> py_not (strip s) = false.
Proof.
  rewrite py_not_strip. intros H.
  apply existsb_exists in H as (c & Hin & Hc).
  apply not_true_is_false. intros Hall.
  rewrite forallb_forall in Hall.
  apply chinese_not_space in Hc. rewrite (Hall c Hin) in Hc. discriminate.
Qed.

(** [rstrip] removes a suffix made of whitespace only. *)
Lemma rstrip_suffix s :
  exists t, s = rstrip s ++ t /\ forallb isspace t = true.
Proof.
  induction s as [|c s (t & Hs & Ht)].
  - exists []. split; reflexivity.
  - simpl. destruct (rstrip s) as [|d u] eqn:Hr.
    + simpl in Hs. subst t. destruct (isspace c) eqn:Hc.
      * exists (c :: s). simpl. rewrite Hc, Ht. split; reflexivity.
      * exists s. split; [reflexivity|exact Ht].
    + exists t. split; [|exact Ht]. rewrite Hs at 1. reflexivity.
Qed.

(** What remains does not end in whitespace. *)
Lemma rstrip_last s c : last (rstrip s) = Some c -> isspace c = false.
Proof.
  revert c. induction s as [|d s IH]; intros c; [discriminate|].
  simpl. destruct (rstrip s) as [|e u] eqn:Hr.
  - destruct (isspace d) eqn:Hd; [discriminate|].
    simpl. intros [= <-]. exact Hd.
  - change (last (d :: e :: u)) with (last (e :: u)). apply IH.
Qed.

Lemma rstrip_length s : length (rstrip s) <= length s.
Proof.
  destruct (rstrip_suffix s) as (t & Hs & _).
  rewrite Hs at 2. rewrite length_app. lia.
Qed.

Lemma split_lines_cons s : exists l ls, split_lines s = l :: ls.
Proof.
  induction s as [|c s (l & ls & H)]; simpl; [eauto|].
  destruct (c =? Char.newline)%N; [eauto|]. rewrite H. eauto.
Qed.

Lemma join_split s : join_lines (split_lines s) = s.
Proof.
  induction s as [|c s IH]; [reflexivity|].
  simpl. destruct (N.eqb_spec c Char.newline) as [->|Hc].
  - destruct (split_lines_cons s) as (l & ls & H).
    rewrite H in *. rewrite <- IH. reflexivity.
  - destruct (split_lines_cons s) as (l & ls & H).
    rewrite H in *. rewrite <- IH. destruct ls; reflexivity.
Qed.

Lemma split_lines_short s :
  Forall (fun l : str => length l <= length s) (split_lines s).
Proof.
  induction s as [|c s IH]; simpl.
  - repeat constructor.
  - destruct (c =? Char.newline)%N.
    + constructor; [simpl; lia|].
      eapply Forall_impl; [exact IH|]. simpl. intros; lia.
    + destruct (split_lines s) as [|l ls]; [constructor; [simpl; lia|constructor]|].
      inversion IH as [|? ? Hl Hls]; subst.
      constructor; [simpl; lia|].
      eapply Forall_impl; [exact Hls|]. simpl. intros; lia.
Qed.

Lemma split_lines_chinese s :
  existsb is_chinese s = false ->
  Forall (fun l : str => existsb is_chinese l = false) (split_lines s).
Proof.
  induction s as [|c s IH]; simpl; intros H.
  - repeat constructor.
  - apply orb_false_iff in H as [Hc Hs]. specialize (IH Hs).
    destruct (c =? Char.newline)%N.
    + constructor; [reflexivity|exact IH].
    + destruct (split_lines s) as [|l ls];
        [constructor; [simpl; rewrite Hc; reflexivity|constructor]|].
      inversion IH as [|? ? Hl Hls]; subst.
      constructor; [simpl; rewrite Hc, Hl; reflexivity|exact Hls].
Qed.

(** ** The loop over the lines *)

Lemma annotated_length lines out :
  annotated lines out -> length lines <= length out <= 2 * length lines.
Proof. induction 1; simpl; lia. Qed.

Section Lines.

Variable pinyin : char -> str.

Lemma line_step_plain fuel result_lines line :
  existsb is_chinese line = false ->
  line_step pinyin fuel result_lines line = Done (result_lines ++ [line]).
Proof.
  intros H. unfold line_step. rewrite H. simpl.
  destruct (py_not (strip line)); reflexivity.
Qed.

Lemma line_step_chinese fuel result_lines line :
  existsb is_chinese line = true ->
  length line < fuel ->
  line_step pinyin fuel result_lines line
  = Done (result_lines ++ [rstrip (cells pinyin line); line]).
Proof.
  intros H Hfuel. unfold line_step.
  rewrite (chinese_line_not_blank line H), H. simpl.
  rewrite while_pinyin_from_start by exact Hfuel. simpl.
  rewrite <- app_assoc. reflexivity.
Qed.

Lemma line_step_closed fuel result_lines line :
  length line < fuel ->
  line_step pinyin fuel result_lines line = Done (result_lines ++ line_out pinyin line).
Proof.
  intros Hfuel. unfold line_out.
  destruct (existsb is_chinese line) eqn:H.
  - apply line_step_chinese; assumption.
  - apply line_step_plain; assumption.
Qed.

Lemma for_lines_closed fuel lines : forall result_lines,
  Forall (fun l : str => length l < fuel) lines ->
  for_lines pinyin fuel lines result_lines
  = Done (result_lines ++ flat_map (line_out pinyin) lines).
Proof.
  induction lines as [|line lines IH]; intros result_lines Hall; simpl.
  - rewrite app_nil_r. reflexivity.
  - inversion Hall as [|? ? Hl Hls]; subst.
    rewrite line_step_closed by exact Hl. simpl.
    rewrite IH by exact Hls. rewrite <- app_assoc. reflexivity.
Qed.

Lemma for_lines_plain fuel lines : forall result_lines,
  Forall (fun l : str => existsb is_chinese l = false) lines ->
  for_lines pinyin fuel lines result_lines = Done (result_lines ++ lines).
Proof.
  induction lines as [|line lines IH]; intros result_lines Hall; simpl.
  - rewrite app_nil_r. reflexivity.
  - inversion Hall as [|? ? Hl Hls]; subst.
    rewrite line_step_plain by exact Hl. simpl.
    rewrite IH by exact Hls. rewrite <- app_assoc. reflexivity.
Qed.

Lemma annotated_line_out lines : annotated lines (flat_map (line_out pinyin) lines).
Proof.
  induction lines as [|line lines IH]; simpl; [constructor|].
  unfold line_out at 1. destruct (existsb is_chinese line); simpl.
  - apply annotated_pair, IH.
  - apply annotated_plain, IH.
Qed.

Lemma split_lines_fuel text fuel :
  length text < fuel ->
  Forall (fun l : str => length l < fuel) (split_lines text).
Proof.
  intros Hfuel. eapply Forall_impl; [apply split_lines_short|].
  simpl. intros; lia.
Qed.

Lemma optimized_closed text fuel :
  length text < fuel ->
  add_pinyin_preserve_format_optimized pinyin fuel text
  = Done (join_lines (flat_map (line_out pinyin) (split_lines text))).
Proof.
  intros Hfuel. unfold add_pinyin_preserve_format_optimized.
  rewrite for_lines_closed by (apply split_lines_fuel; exact Hfuel).
  reflexivity.
Qed.

(** No index is read out of range, whatever the fuel. *)
Lemma while_pinyin_no_raise fuel : forall (line : str) i acc e,
  while_pinyin pinyin fuel line i acc <> Raise e.
Proof.
  induction fuel as [|fuel IH]; intros line i acc e; [discriminate|].
  cbn [while_pinyin]. destruct (Nat.ltb_spec i (length line)) as [Hlt|Hge];
    [|discriminate].
  destruct (lookup_lt_is_Some_2 line i Hlt) as [c Hc].
  rewrite Hc. apply IH.
Qed.

Lemma line_step_no_raise fuel result_lines line e :
  line_step pinyin fuel result_lines line <> Raise e.
Proof.
  unfold line_step.
  destruct (py_not (strip line)); [discriminate|].
  destruct (existsb is_chinese line); simpl; [|discriminate].
  destruct (while_pinyin pinyin fuel line 0 []) eqn:Hw; simpl; try discriminate.
  exfalso. exact (while_pinyin_no_raise _ _ _ _ _ Hw).
Qed.

Lemma for_lines_no_raise fuel lines : forall result_lines e,
  for_lines pinyin fuel lines result_lines <> Raise e.
Proof.
  induction lines as [|line lines IH]; intros result_lines e; simpl;
    [discriminate|].
  destruct (line_step pinyin fuel result_lines line) eqn:Hs; simpl;
    [apply IH| |discriminate].
  exfalso. exact (line_step_no_raise _ _ _ _ Hs).
Qed.

End Lines.

(** ** Lines without qualifying characters *)

(** A document without any qualifying character comes back as it is,
    whatever the fuel: the [while] loop is never entered. *)
Lemma plain_document_unchanged pinyin fuel text :
  existsb is_chinese text = false ->
  add_pinyin_preserve_format_optimized pinyin fuel text = Done text.
Proof.
  intros H. unfold add_pinyin_preserve_format_optimized.
  rewrite for_lines_plain by (apply split_lines_chinese; exact H).
  simpl. rewrite join_split. reflexivity.
Qed.

(** C3. A line with no character in U+4E00..U+9FFF, the empty line and the
    lines made of whitespace included, adds exactly itself to
    [result_lines]: no annotation line is put before it and the line is not
    changed.  This holds for every fuel, the [while] loop not being reached. *)
Theorem pass_through_line :
  forall (pinyin : N -> list N) (fuel : nat) (result_lines : list (list N))
         (line : list N),
    existsb is_chinese line = false ->
    line_step pinyin fuel result_lines line = Done (result_lines ++ [line]).
Proof.
  intros pinyin fuel result_lines line H.
  unfold line_step. rewrite H.
  destruct (py_not (strip line)); reflexivity.
Qed.

Lemma pass_through_line_witness :
  existsb is_chinese (lit "hello") = false /\
  line_step demo_pinyin 0 [lit "x"] (lit "hello") = Done ([lit "x"] ++ [lit "hello"]).
Proof.
  split; [reflexivity|].
  apply (pass_through_line demo_pinyin 0 [lit "x"] (lit "hello")).
  reflexivity.
Defined.

(** ** Trailing whitespace *)

(** C6. The annotation line that a line with a qualifying character adds to
    [result_lines] is the [rstrip] of the line built by the loop, and it does
    not end in a whitespace character. *)
Theorem emitted_annotation_trimmed :
  forall (pinyin : N -> list N) (fuel : nat) (result_lines : list (list N))
         (line : list N),
    existsb is_chinese line = true ->
    length line < fuel ->
    exists pinyin_line emitted,
      while_pinyin pinyin fuel line 0 [] = Done pinyin_line /\
      emitted = rstrip pinyin_line /\
      line_step pinyin fuel result_lines line
      = Done (result_lines ++ [emitted; line]) /\
      (forall c, last emitted = Some c -> isspace c = false).
Proof.
  intros pinyin fuel result_lines line H Hfuel.
  exists (cells pinyin line), (rstrip (cells pinyin line)).
  split; [apply while_pinyin_from_start; exact Hfuel|].
  split; [reflexivity|].
  split; [apply line_step_chinese; assumption|].
  intros c. apply rstrip_last.
Qed.

Lemma emitted_annotation_trimmed_witness :
  exists pinyin_line emitted,
    while_pinyin demo_pinyin 10 ni_hao_world 0 [] = Done pinyin_line /\
    emitted = rstrip pinyin_line /\
    line_step demo_pinyin 10 [] ni_hao_world = Done ([] ++ [emitted; ni_hao_world]) /\
    (forall c, last emitted = Some c -> isspace c = false).
Proof.
  apply (emitted_annotation_trimmed demo_pinyin 10 [] ni_hao_world).
  - reflexivity.
  - vm_compute. lia.
Defined.

(** ** Order of the lines *)

(** C7. For a document of N lines the loop ends with a [result_lines] of
    between N and 2N lines, which the function joins into its result, and
    [result_lines] is the list of the input lines, each once, unchanged and
    in the order of the input, some preceded by one annotation line. *)
Theorem order_preservation :
  forall (pinyin : N -> list N) (fuel : nat) (text : list N),
    length text < fuel ->
    exists result_lines,
      for_lines pinyin fuel (split_lines text) [] = Done result_lines /\
      add_pinyin_preserve_format_optimized pinyin fuel text
      = Done (join_lines result_lines) /\
      length (split_lines text) <= length result_lines /\
      length result_lines <= 2 * length (split_lines text) /\
      annotated (split_lines text) result_lines.
Proof.
  intros pinyin fuel text Hfuel.
  exists (flat_map (line_out pinyin) (split_lines text)).
  pose proof (annotated_line_out pinyin (split_lines text)) as Ha.
  pose proof (annotated_length _ _ Ha) as [Hlo Hhi].
  split; [apply (for_lines_closed pinyin fuel _ []), split_lines_fuel, Hfuel|].
  split; [apply optimized_closed, Hfuel|].
  auto.
Qed.

Lemma order_preservation_witness :
  exists result_lines,
    for_lines demo_pinyin 20 (split_lines (ni_hao_world ++ Char.newline :: lit "hi")) []
    = Done result_lines /\
    add_pinyin_preserve_format_optimized demo_pinyin 20
      (ni_hao_world ++ Char.newline :: lit "hi")
    = Done (join_lines result_lines) /\
    length (split_lines (ni_hao_world ++ Char.newline :: lit "hi"))
    <= length result_lines /\
    length result_lines
    <= 2 * length (split_lines (ni_hao_world ++ Char.newline :: lit "hi")) /\
    annotated (split_lines (ni_hao_world ++ Char.newline :: lit "hi")) result_lines.
Proof.
  apply (order_preservation demo_pinyin 20 (ni_hao_world ++ Char.newline :: lit "hi")).
  vm_compute. lia.
Defined.

(** ** Termination *)

(** The loop over one line needs one step per character and one more for
    the test that ends it. *)
Lemma while_pinyin_steps pinyin fuel (line : list N) :
  while_pinyin pinyin fuel line 0 [] = OutOfFuel <-> fuel <= length line.
Proof.
  split.
  - intros H. destruct (Nat.le_gt_cases fuel (length line)) as [Hle|Hgt]; [exact Hle|].
    rewrite while_pinyin_from_start in H by exact Hgt. discriminate.
  - intros H. apply while_pinyin_starved. lia.
Qed.

(** C10. With any lookup that returns a token for every character, the
    function returns a string as soon as the fuel exceeds the length of the
    text, the same string for every such fuel, and with no fuel at all does
    it raise [IndexError]. *)
Theorem optimized_terminates :
  forall (pinyin : N -> list N) (text : list N) (fuel fuel' fuel0 : nat),
    length text < fuel ->
    length text < fuel' ->
    (exists out,
       add_pinyin_preserve_format_optimized pinyin fuel text = Done out /\
       add_pinyin_preserve_format_optimized pinyin fuel' text = Done out) /\
    (forall e, add_pinyin_preserve_format_optimized pinyin fuel0 text <> Raise e).
Proof.
  intros pinyin text fuel fuel' fuel0 Hfuel Hfuel'. split.
  - exists (join_lines (flat_map (line_out pinyin) (split_lines text))).
    split; apply optimized_closed; assumption.
  - intros e. unfold add_pinyin_preserve_format_optimized.
    destruct (for_lines pinyin fuel0 (split_lines text) []) eqn:Hf; simpl;
      try discriminate.
    exfalso. exact (for_lines_no_raise _ _ _ _ _ Hf).
Qed.

Lemma optimized_terminates_witness :
  (exists out,
     add_pinyin_preserve_format_optimized demo_pinyin 10 ni_hao_world = Done out /\
     add_pinyin_preserve_format_optimized demo_pinyin 25 ni_hao_world = Done out) /\
  (forall e, add_pinyin_preserve_format_optimized demo_pinyin 3 ni_hao_world <> Raise e).
Proof.
  apply (optimized_terminates demo_pinyin ni_hao_world 10 25 3); vm_compute; lia.
Defined.

(** ** A missing input file *)

(** C9. When there is no file at [input_file], [process_file] ends after
    printing the one line [Error: Input file '...' not found.], and the files
    are what they were: no output file is created or written. *)
Theorem missing_input_reported :
  forall (pinyin : N -> list N) (splitext : list N -> list N * list N)
         (fuel : nat) (input_file : list N) (output_file : option (list N))
         (w : world),
    files w !! input_file = None ->
    process_file pinyin splitext fuel input_file output_file w
    = (Done tt,
       World (files w)
             (console w
              ++ [lit "Error: Input file '" ++ input_file ++ lit "' not found."])).
Proof.
  intros pinyin splitext fuel input_file output_file w Hmissing.
  unfold process_file, try_except, io_bind, open_read.
  rewrite Hmissing. reflexivity.
Qed.

Lemma missing_input_reported_witness :
  files demo_world !! lit "other.txt" = None /\
  process_file demo_pinyin demo_splitext 5 (lit "other.txt") None demo_world
  = (Done tt,
     World (files demo_world)
           (console demo_world
            ++ [lit "Error: Input file '" ++ lit "other.txt" ++ lit "' not found."])).
Proof.
  split; [vm_compute; reflexivity|].
  apply (missing_input_reported demo_pinyin demo_splitext 5 (lit "other.txt") None
           demo_world).
  vm_compute. reflexivity.
Defined.

(** ** Where the tokens are *)

Section Columns.

Variable pinyin : char -> str.

Lemma shift_zero (s : str) :
  sum_list (map (shift pinyin) s) = 0 <-> existsb is_chinese s = false.
Proof.
  induction s as [|c s IH]; simpl; [tauto|].
  unfold shift at 1. destruct (is_chinese c); simpl.
  - split; [lia|discriminate].
  - exact IH.
Qed.

Lemma column_of_sum (line : str) i :
  i <= length line ->
  column_of pinyin line i = i + sum_list (map (shift pinyin) (take i line)).
Proof.
  intros Hi. unfold column_of. rewrite length_cells, length_take_le by exact Hi.
  reflexivity.
Qed.

Lemma column_of_same (line : str) i :
  i <= length line ->
  column_of pinyin line i = i <-> existsb is_chinese (take i line) = false.
Proof.
  intros Hi. rewrite column_of_sum by exact Hi.
  rewrite <- shift_zero. lia.
Qed.

Lemma column_of_app (s t : str) i :
  i <= length s -> column_of pinyin (s ++ t) i = column_of pinyin s i.
Proof. intros Hi. unfold column_of. rewrite take_app_le by exact Hi. reflexivity. Qed.

Lemma column_of_end (s t : str) :
  column_of pinyin (s ++ t) (length s) = length (cells pinyin s).
Proof. unfold column_of. rewrite take_app_length. reflexivity. Qed.

(** From the column of [line[i]] on, the annotation is the segment of
    [line[i]] followed by those of the rest of the line. *)
Lemma cells_at_column (line : str) i c :
  line !! i = Some c ->
  drop (column_of pinyin line i) (cells pinyin line)
  = cell pinyin c ++ cells pinyin (drop (S i) line).
Proof.
  intros Hi. rewrite (cells_split pinyin line i c Hi) at 1.
  unfold column_of. rewrite drop_app_length. reflexivity.
Qed.

Lemma token_at_column (line : str) i c :
  line !! i = Some c ->
  is_chinese c = true ->
  take (length (pinyin c) + 2) (drop (column_of pinyin line i) (cells pinyin line))
  = pinyin c ++ [Char.space; Char.space].
Proof.
  intros Hi Hc. rewrite (cells_at_column line i c Hi).
  unfold cell. rewrite Hc.
  replace (length (pinyin c) + 2) with (length (pinyin c ++ [Char.space; Char.space]))
    by (rewrite length_app; reflexivity).
  apply take_app_length.
Qed.

Lemma in_token_app (s t : str) k : in_token pinyin s k -> in_token pinyin (s ++ t) k.
Proof.
  intros (i & c & Hi & Hc & Hk). exists i, c.
  pose proof (lookup_lt_Some _ _ _ Hi) as Hlt.
  rewrite column_of_app by lia.
  split; [apply lookup_app_l_Some; exact Hi|]. split; assumption.
Qed.

(** What a column of the annotation can hold. *)
Lemma column_cases (line : str) : forall k ch,
  cells pinyin line !! k = Some ch ->
  in_token pinyin line k \/
  ch = Char.space \/
  (exists i, line !! i = Some ch /\ is_chinese ch = false /\
             isspace ch = true /\ column_of pinyin line i = k).
Proof.
  induction line as [|c l IH] using rev_ind; intros k ch Hk; [discriminate|].
  rewrite cells_app in Hk. apply lookup_app_Some in Hk as [Hk|[Hle Hk]].
  - destruct (IH k ch Hk) as [Ht|[Hs|(i & Hi & Hc & Hsp & Hcol)]].
    + left. apply in_token_app, Ht.
    + right. left. exact Hs.
    + right. right. exists i.
      pose proof (lookup_lt_Some _ _ _ Hi) as Hlt.
      rewrite column_of_app by lia.
      split; [apply lookup_app_l_Some; exact Hi|]. auto.
  - assert (Hlast : (l ++ [c]) !! length l = Some c)
      by (apply list_lookup_middle; reflexivity).
    pose proof (column_of_end l [c]) as Hcol.
    simpl in Hk. rewrite app_nil_r in Hk. unfold cell in Hk.
    destruct (is_chinese c) eqn:Hc.
    + apply lookup_app_Some in Hk as [Hk|[Hle' Hk]].
      * left. exists (length l), c.
        pose proof (lookup_lt_Some _ _ _ Hk) as Hlt.
        split; [exact Hlast|]. split; [exact Hc|]. lia.
      * right. left.
        destruct (k - length (cells pinyin l) - length (pinyin c)) as [|[|n]];
          simpl in Hk; first [discriminate | injection Hk as <-; reflexivity].
    + destruct (isspace c) eqn:Hsp.
      * destruct (k - length (cells pinyin l)) as [|n] eqn:Hn; [|discriminate].
        injection Hk as <-. right. right. exists (length l).
        split; [exact Hlast|]. split; [exact Hc|]. split; [exact Hsp|]. lia.
      * right. left.
        destruct (k - length (cells pinyin l)) as [|n]; simpl in Hk;
          first [discriminate | injection Hk as <-; reflexivity].
Qed.

(** A character that is not qualifying fills one column. *)
Lemma pass_through_cell (line : str) i c :
  line !! i = Some c ->
  is_chinese c = false ->
  cells pinyin line !! column_of pinyin line i
  = Some (if isspace c then c else Char.space) /\
  column_of pinyin line (S i) = S (column_of pinyin line i).
Proof.
  intros Hi Hc. split.
  - rewrite <- (Nat.add_0_r (column_of pinyin line i)), <- lookup_drop.
    rewrite (cells_at_column line i c Hi). unfold cell. rewrite Hc.
    destruct (isspace c); reflexivity.
  - unfold column_of. rewrite (take_S_r line i c Hi), cells_app, length_app.
    simpl. unfold cell. rewrite Hc. destruct (isspace c); simpl; lia.
Qed.

End Columns.

(** The lookup is consulted at the qualifying characters of the line only. *)
Lemma cells_ext (p q : N -> list N) (line : list N) :
  Forall (fun c => is_chinese c = true -> p c = q c) line ->
  cells p line = cells q line.
Proof.
  induction 1 as [|c line Hc _ IH]; [reflexivity|].
  change (cell p c ++ cells p line = cell q c ++ cells q line).
  rewrite IH. f_equal. unfold cell.
  destruct (is_chinese c); [rewrite Hc by reflexivity|]; reflexivity.
Qed.

(** A lookup with the two tokens of the running example annotates like
    [demo_pinyin] the lines whose qualifying characters are 你 and 好. *)
Lemma cells_demo (pinyin : N -> list N) (line : list N) :
  pinyin Char.ni = demo_pinyin Char.ni ->
  pinyin Char.hao = demo_pinyin Char.hao ->
  forallb (fun c => negb (is_chinese c) || (c =? Char.ni)%N || (c =? Char.hao)%N)
    line = true ->
  cells pinyin line = cells demo_pinyin line.
Proof.
  intros Hni Hhao Hall. apply cells_ext.
  induction line as [|c line IH]; [constructor|].
  simpl in Hall. apply andb_true_iff in Hall as [Hc Hline].
  constructor; [|exact (IH Hline)].
  intros Hch. rewrite Hch in Hc. simpl in Hc.
  apply orb_true_iff in Hc as [Hc|Hc]; apply N.eqb_eq in Hc; subst c; assumption.
Qed.

(** ** Alignment *)

(** C1, as stated, fails: in the annotation of 你好 the token of 好, the
    character of column 1, begins at column 4; column 1 holds the second
    character of the token of 你. *)
Lemma alignment_at_own_column_fails :
  ~ (forall (pinyin : N -> list N) (line : list N) (i : nat) (c t : N)
            (rest : list N) (fuel : nat),
       line !! i = Some c ->
       is_chinese c = true ->
       pinyin c = t :: rest ->
       length line < fuel ->
       exists pinyin_line,
         while_pinyin pinyin fuel line 0 [] = Done pinyin_line /\
         pinyin_line !! i = Some t).
Proof.
  intros H.
  destruct (H demo_pinyin [Char.ni; Char.hao] 1 Char.hao 0x68%N
              [Char.a_caron; 0x6f%N] 3)
    as (pinyin_line & Hrun & Hcol); try reflexivity.
  - simpl. lia.
  - vm_compute in Hrun. injection Hrun as <-. discriminate Hcol.
Qed.

(** C1, amended. The token of the qualifying character of column [i] is in
    the annotation line, before trimming, from column
    [i + sum of (len(token) + 1) over the qualifying characters before i]
    on, its first character at that column; this is column [i] exactly when
    no qualifying character precedes column [i]. *)
Theorem token_column :
  forall (pinyin : N -> list N) (line : list N) (i : nat) (c : N) (fuel : nat),
    line !! i = Some c ->
    is_chinese c = true ->
    length line < fuel ->
    exists pinyin_line,
      while_pinyin pinyin fuel line 0 [] = Done pinyin_line /\
      take (length (pinyin c)) (drop (column_of pinyin line i) pinyin_line)
      = pinyin c /\
      (forall t rest, pinyin c = t :: rest ->
                      pinyin_line !! column_of pinyin line i = Some t) /\
      column_of pinyin line i
      = i + sum_list (map (shift pinyin) (take i line)) /\
      (column_of pinyin line i = i <-> existsb is_chinese (take i line) = false).
Proof.
  intros pinyin line i c fuel Hi Hc Hfuel.
  pose proof (lookup_lt_Some _ _ _ Hi) as Hlt.
  assert (Htake : take (length (pinyin c))
                    (drop (column_of pinyin line i) (cells pinyin line)) = pinyin c).
  { rewrite (cells_at_column pinyin line i c Hi). unfold cell. rewrite Hc.
    rewrite <- app_assoc. apply take_app_length. }
  exists (cells pinyin line).
  split; [apply while_pinyin_from_start; exact Hfuel|].
  split; [exact Htake|].
  split.
  - intros t rest Ht.
    rewrite <- (Nat.add_0_r (column_of pinyin line i)), <- lookup_drop.
    rewrite <- (lookup_take_lt _ (length (pinyin c))) by (rewrite Ht; simpl; lia).
    rewrite Htake, Ht. reflexivity.
  - split; [apply column_of_sum; lia|apply column_of_same; lia].
Qed.

Lemma token_column_witness :
  exists pinyin_line,
    while_pinyin demo_pinyin 3 [Char.ni; Char.hao] 0 [] = Done pinyin_line /\
    take (length (demo_pinyin Char.hao))
      (drop (column_of demo_pinyin [Char.ni; Char.hao] 1) pinyin_line)
    = demo_pinyin Char.hao /\
    (forall t rest, demo_pinyin Char.hao = t :: rest ->
                    pinyin_line !! column_of demo_pinyin [Char.ni; Char.hao] 1 = Some t) /\
    column_of demo_pinyin [Char.ni; Char.hao] 1
    = 1 + sum_list (map (shift demo_pinyin) (take 1 [Char.ni; Char.hao])) /\
    (column_of demo_pinyin [Char.ni; Char.hao] 1 = 1
     <-> existsb is_chinese (take 1 [Char.ni; Char.hao]) = false).
Proof.
  apply (token_column demo_pinyin [Char.ni; Char.hao] 1 Char.hao 3).
  - reflexivity.
  - reflexivity.
  - simpl. lia.
Defined.

(** ** Length of the annotation line *)

(** C2, as stated, fails: the annotation of the line 你, of length 1, has
    length 4 before trimming. *)
Lemma annotation_as_long_as_line_fails :
  ~ (forall (pinyin : N -> list N) (line : list N) (fuel : nat),
       existsb is_chinese line = true ->
       length line < fuel ->
       exists pinyin_line,
         while_pinyin pinyin fuel line 0 [] = Done pinyin_line /\
         length pinyin_line = length line).
Proof.
  intros H.
  destruct (H demo_pinyin [Char.ni] 2) as (pinyin_line & Hrun & Hlen);
    try reflexivity.
  - simpl. lia.
  - vm_compute in Hrun. injection Hrun as <-. discriminate Hlen.
Qed.

(** C2, amended. For a line with at least one qualifying character the
    annotation line, before trimming, has the length of the line plus
    [len(token) + 1] for each qualifying character, so it is longer than the
    line. *)
Theorem annotation_length :
  forall (pinyin : N -> list N) (line : list N) (fuel : nat)
         (result_lines : list (list N)),
    existsb is_chinese line = true ->
    length line < fuel ->
    exists pinyin_line,
      while_pinyin pinyin fuel line 0 [] = Done pinyin_line /\
      line_step pinyin fuel result_lines line
      = Done (result_lines ++ [rstrip pinyin_line; line]) /\
      length pinyin_line = length line + sum_list (map (shift pinyin) line) /\
      length line < length pinyin_line.
Proof.
  intros pinyin line fuel result_lines H Hfuel.
  exists (cells pinyin line).
  split; [apply while_pinyin_from_start; exact Hfuel|].
  split; [apply line_step_chinese; assumption|].
  pose proof (length_cells pinyin line) as Hlen.
  split; [exact Hlen|].
  destruct (sum_list (map (shift pinyin) line)) eqn:Hsum; [|lia].
  apply shift_zero in Hsum. congruence.
Qed.

Lemma annotation_length_witness :
  exists pinyin_line,
    while_pinyin demo_pinyin 2 [Char.ni] 0 [] = Done pinyin_line /\
    line_step demo_pinyin 2 [] [Char.ni] = Done ([] ++ [rstrip pinyin_line; [Char.ni]]) /\
    length pinyin_line = length [Char.ni] + sum_list (map (shift demo_pinyin) [Char.ni]) /\
    length [Char.ni] < length pinyin_line.
Proof.
  apply (annotation_length demo_pinyin [Char.ni] 2 []).
  - reflexivity.
  - simpl. lia.
Defined.

(** ** Tokens that reach past the end of the line *)

(** C4, as stated, fails: for the line 你 with the token nǐ the emitted
    annotation line is not the single character n. *)
Lemma token_cut_at_line_end_fails :
  ~ (forall (pinyin : N -> list N) (fuel : nat) (result_lines : list (list N)),
       pinyin Char.ni = [0x6e%N; Char.i_caron] ->
       1 < fuel ->
       line_step pinyin fuel result_lines [Char.ni]
       = Done (result_lines ++ [[0x6e%N]; [Char.ni]])).
Proof.
  intros H.
  specialize (H demo_pinyin 2 [] eq_refl (le_n 2)).
  vm_compute in H. discriminate H.
Qed.

(** C4, amended. No token is cut: the token of every qualifying character is
    in the annotation line, before trimming, in full and followed by two
    spaces, also when this reaches past the length of the line; for the line
    你 with the token nǐ the emitted annotation line is nǐ. *)
Theorem tokens_kept_whole :
  forall (pinyin : N -> list N) (line : list N) (i : nat) (c : N)
         (fuel fuel1 : nat) (result_lines : list (list N)),
    line !! i = Some c ->
    is_chinese c = true ->
    length line < fuel ->
    pinyin Char.ni = [0x6e%N; Char.i_caron] ->
    1 < fuel1 ->
    (exists pinyin_line,
       while_pinyin pinyin fuel line 0 [] = Done pinyin_line /\
       take (length (pinyin c) + 2) (drop (column_of pinyin line i) pinyin_line)
       = pinyin c ++ [Char.space; Char.space] /\
       column_of pinyin line i
       = i + sum_list (map (shift pinyin) (take i line)) /\
       column_of pinyin line i + length (pinyin c) + 2 <= length pinyin_line) /\
    line_step pinyin fuel1 result_lines [Char.ni]
    = Done (result_lines ++ [[0x6e%N; Char.i_caron]; [Char.ni]]).
Proof.
  intros pinyin line i c fuel fuel1 result_lines Hi Hc Hfuel Hni Hfuel1. split.
  - exists (cells pinyin line).
    split; [apply while_pinyin_from_start; exact Hfuel|].
    split; [apply token_at_column; assumption|].
    split; [apply column_of_sum; apply Nat.lt_le_incl, (lookup_lt_Some _ _ _ Hi)|].
    rewrite (cells_split pinyin line i c Hi), !length_app.
    unfold column_of, cell. rewrite Hc, length_app. simpl. lia.
  - rewrite line_step_chinese by (try reflexivity; simpl; lia).
    rewrite (cells_ext pinyin demo_pinyin [Char.ni])
      by (constructor; [intros _; exact Hni|constructor]).
    vm_compute. reflexivity.
Qed.

Lemma tokens_kept_whole_witness :
  (exists pinyin_line,
     while_pinyin demo_pinyin 2 [Char.ni] 0 [] = Done pinyin_line /\
     take (length (demo_pinyin Char.ni) + 2)
       (drop (column_of demo_pinyin [Char.ni] 0) pinyin_line)
     = demo_pinyin Char.ni ++ [Char.space; Char.space] /\
     column_of demo_pinyin [Char.ni] 0
     = 0 + sum_list (map (shift demo_pinyin) (take 0 [Char.ni])) /\
     column_of demo_pinyin [Char.ni] 0 + length (demo_pinyin Char.ni) + 2
     <= length pinyin_line) /\
  line_step demo_pinyin 2 [] [Char.ni]
  = Done ([] ++ [[0x6e%N; Char.i_caron]; [Char.ni]]).
Proof.
  apply (tokens_kept_whole demo_pinyin [Char.ni] 0 Char.ni 2 2 []).
  - reflexivity.
  - reflexivity.
  - simpl. lia.
  - reflexivity.
  - lia.
Defined.

(** ** Columns between the tokens *)

(** C5, as stated, fails: in the annotation line emitted for 你, a tab, 好
    column 4 holds the tab of the line; no token is there and it is not a
    space. *)
Lemma gaps_hold_spaces_fails :
  ~ (forall (pinyin : N -> list N) (line : list N) (fuel : nat)
            (emitted : list N) (k : nat) (ch : N),
       length line < fuel ->
       line_step pinyin fuel [] line = Done [emitted; line] ->
       emitted !! k = Some ch ->
       in_token pinyin line k \/ ch = Char.space).
Proof.
  intros H.
  destruct (H demo_pinyin [Char.ni; Char.tab; Char.hao] 4
              ([0x6e%N; Char.i_caron; Char.space; Char.space; Char.tab;
                0x68%N; Char.a_caron; 0x6f%N])
              4 Char.tab)
    as [(i & c & Hi & Hc & Hk)|Hch].
  - simpl. lia.
  - vm_compute. reflexivity.
  - reflexivity.
  - destruct i as [|[|[|i]]]; simpl in Hi; try discriminate Hi;
      injection Hi as <-; vm_compute in Hc, Hk; try discriminate Hc; lia.
  - discriminate Hch.
Qed.

(** C5, amended. A column of an emitted annotation line that holds no
    character of a token holds a whitespace character: a space, or the
    whitespace character (a tab, say) that the line has at the character this
    column comes from.  A character that is not qualifying fills exactly one
    column: with itself when it is whitespace, with a space otherwise. *)
Theorem gaps_hold_whitespace :
  forall (pinyin : N -> list N) (line : list N) (fuel : nat)
         (result_lines : list (list N)),
    existsb is_chinese line = true ->
    length line < fuel ->
    exists pinyin_line emitted,
      while_pinyin pinyin fuel line 0 [] = Done pinyin_line /\
      line_step pinyin fuel result_lines line
      = Done (result_lines ++ [emitted; line]) /\
      (forall k ch,
         emitted !! k = Some ch ->
         in_token pinyin line k \/
         ch = Char.space \/
         (exists i, line !! i = Some ch /\ is_chinese ch = false /\
                    isspace ch = true /\ column_of pinyin line i = k)) /\
      (forall i c,
         line !! i = Some c ->
         is_chinese c = false ->
         pinyin_line !! column_of pinyin line i
         = Some (if isspace c then c else Char.space) /\
         column_of pinyin line (S i) = S (column_of pinyin line i)).
Proof.
  intros pinyin line fuel result_lines H Hfuel.
  exists (cells pinyin line), (rstrip (cells pinyin line)).
  split; [apply while_pinyin_from_start; exact Hfuel|].
  split; [apply line_step_chinese; assumption|].
  split.
  - intros k ch Hk. apply column_cases.
    destruct (rstrip_suffix (cells pinyin line)) as (t & Hs & _).
    rewrite Hs. apply lookup_app_l_Some, Hk.
  - intros i c. apply pass_through_cell.
Qed.

Lemma gaps_hold_whitespace_witness :
  exists pinyin_line emitted,
    while_pinyin demo_pinyin 4 [Char.ni; Char.tab; Char.hao] 0 [] = Done pinyin_line /\
    line_step demo_pinyin 4 [] [Char.ni; Char.tab; Char.hao]
    = Done ([] ++ [emitted; [Char.ni; Char.tab; Char.hao]]) /\
    (forall k ch,
       emitted !! k = Some ch ->
       in_token demo_pinyin [Char.ni; Char.tab; Char.hao] k \/
       ch = Char.space \/
       (exists i, [Char.ni; Char.tab; Char.hao] !! i = Some ch /\
                  is_chinese ch = false /\ isspace ch = true /\
                  column_of demo_pinyin [Char.ni; Char.tab; Char.hao] i = k)) /\
    (forall i c,
       [Char.ni; Char.tab; Char.hao] !! i = Some c ->
       is_chinese c = false ->
       pinyin_line !! column_of demo_pinyin [Char.ni; Char.tab; Char.hao] i
       = Some (if isspace c then c else Char.space) /\
       column_of demo_pinyin [Char.ni; Char.tab; Char.hao] (S i)
       = S (column_of demo_pinyin [Char.ni; Char.tab; Char.hao] i)).
Proof.
  apply (gaps_hold_whitespace demo_pinyin [Char.ni; Char.tab; Char.hao] 4 []).
  - reflexivity.
  - simpl. lia.
Defined.

(** ** The running example *)

(** C8, as stated, fails: the annotation line of the example is not nǐhǎo. *)
Lemma ni_hao_world_packed_fails :
  ~ (forall (pinyin : N -> list N) (fuel : nat),
       pinyin Char.ni = [0x6e%N; Char.i_caron] ->
       pinyin Char.hao = [0x68%N; Char.a_caron; 0x6f%N] ->
       9 < fuel ->
       add_pinyin_preserve_format_optimized pinyin fuel ni_hao_world
       = Done ([0x6e%N; Char.i_caron; 0x68%N; Char.a_caron; 0x6f%N]
               ++ Char.newline :: ni_hao_world)).
Proof.
  intros H.
  specialize (H demo_pinyin 10 eq_refl eq_refl (le_n 10)).
  vm_compute in H. discriminate H.
Qed.

(** C8, amended. For the line 你好, world with the tokens nǐ and hǎo the
    function returns the annotation line nǐ, two spaces, hǎo, followed by
    the line as it is. *)
Theorem ni_hao_world_annotated :
  forall (pinyin : N -> list N) (fuel : nat),
    pinyin Char.ni = [0x6e%N; Char.i_caron] ->
    pinyin Char.hao = [0x68%N; Char.a_caron; 0x6f%N] ->
    9 < fuel ->
    add_pinyin_preserve_format_optimized pinyin fuel ni_hao_world
    = Done ([0x6e%N; Char.i_caron; Char.space; Char.space;
             0x68%N; Char.a_caron; 0x6f%N]
            ++ Char.newline :: ni_hao_world).
Proof.
  intros pinyin fuel Hni Hhao Hfuel.
  rewrite optimized_closed by (simpl; lia).
  change (split_lines ni_hao_world) with [ni_hao_world].
  unfold flat_map, line_out.
  change (existsb is_chinese ni_hao_world) with true. cbv iota.
  rewrite (cells_demo pinyin ni_hao_world) by (try reflexivity; assumption).
  vm_compute. reflexivity.
Qed.

Lemma ni_hao_world_annotated_witness :
  add_pinyin_preserve_format_optimized demo_pinyin 10 ni_hao_world
  = Done ([0x6e%N; Char.i_caron; Char.space; Char.space;
           0x68%N; Char.a_caron; 0x6f%N]
          ++ Char.newline :: ni_hao_world).
Proof.
  apply (ni_hao_world_annotated demo_pinyin 10).
  - reflexivity.
  - reflexivity.
  - lia.
Defined.

(** ** The buffer variant *)

Section WorkingFacts.

Variable pinyin : char -> str.

Lemma collect_mapping_closed chars : forall i acc,
  collect_mapping pinyin i chars acc = acc ++ mapping_of pinyin i chars.
Proof.
  induction chars as [|c rest IH]; intros i acc; simpl.
  - rewrite app_nil_r. reflexivity.
  - rewrite IH. destruct (is_chinese c); [rewrite <- app_assoc|]; reflexivity.
Qed.

Lemma mapping_of_app s t i :
  mapping_of pinyin i (s ++ t) = mapping_of pinyin i s ++ mapping_of pinyin (i + length s) t.
Proof.
  revert i. induction s as [|c s IH]; intros i; simpl.
  - rewrite Nat.add_0_r. reflexivity.
  - rewrite IH, Nat.add_succ_r. destruct (is_chinese c); reflexivity.
Qed.

Lemma mapping_of_range chars : forall i,
  Forall (fun e : nat * list N => i <= e.1 < i + length chars) (mapping_of pinyin i chars).
Proof.
  induction chars as [|c rest IH]; intros i; simpl; [constructor|].
  assert (Hrest : Forall (fun e : nat * list N => i <= e.1 < i + S (length rest))
                    (mapping_of pinyin (S i) rest)).
  { eapply Forall_impl; [apply IH|]. simpl. intros; lia. }
  destruct (is_chinese c); [constructor; [simpl; lia|]|]; exact Hrest.
Qed.

Lemma mapping_of_none chars i :
  mapping_of pinyin i chars = [] <-> existsb is_chinese chars = false.
Proof.
  revert i. induction chars as [|c rest IH]; intros i; simpl; [tauto|].
  destruct (is_chinese c); simpl; [split; discriminate|apply IH].
Qed.

(** One token: the writes stay in the buffer and leave the other columns. *)
Lemma place_token_spec pos py js : forall buf : list N,
  Forall (fun j => j < length py /\ pos + j < length buf) js ->
  exists buf',
    place_token js pos py buf = Done buf' /\
    length buf' = length buf /\
    (forall k, Forall (fun j => pos + j <> k) js -> buf' !! k = buf !! k).
Proof.
  induction js as [|j js IH]; intros buf Hjs; simpl.
  - exists buf. auto.
  - inversion Hjs as [|? ? [Hpy Hbuf] Hrest]; subst.
    destruct (lookup_lt_is_Some_2 py j Hpy) as [x Hx]. rewrite Hx.
    destruct (Nat.ltb_spec (pos + j) (length buf)) as [_|Hge]; [|lia].
    destruct (IH (<[pos + j := x]> buf)) as (buf' & Hrun & Hlen & Hkeep).
    { eapply Forall_impl; [exact Hrest|]. simpl. intros a [? ?].
      rewrite length_insert. auto. }
    exists buf'. split; [exact Hrun|].
    rewrite length_insert in Hlen. split; [exact Hlen|].
    intros k Hk. inversion Hk as [|? ? Hj Hk']; subst.
    rewrite (Hkeep k Hk'). apply list_lookup_insert_ne. exact Hj.
Qed.

Lemma range_in_token (line py buf : list N) pos :
  length buf = length line ->
  Forall (fun j => j < length py /\ pos + j < length buf)
    (seq 0 (min (length py) (length line - pos))).
Proof.
  intros Hlen. apply Forall_forall. intros j Hj.
  apply elem_of_seq in Hj. lia.
Qed.

(** All tokens: the buffer keeps its length, and the columns to the left of
    every position of the mapping are left as they are. *)
Lemma place_all_spec (line : list N) mapping : forall buf : list N,
  length buf = length line ->
  exists buf',
    place_all line mapping buf = Done buf' /\
    length buf' = length line /\
    (forall k, Forall (fun e : nat * list N => k < e.1) mapping ->
               buf' !! k = buf !! k).
Proof.
  induction mapping as [|[pos py] rest IH]; intros buf Hlen; simpl.
  - exists buf. auto.
  - destruct (place_token_spec pos py _ buf (range_in_token line py buf pos Hlen))
      as (buf1 & Hrun1 & Hlen1 & Hkeep1).
    rewrite Hrun1. simpl.
    destruct (IH buf1) as (buf' & Hrun & Hlen' & Hkeep); [lia|].
    exists buf'. split; [exact Hrun|]. split; [exact Hlen'|].
    intros k Hk. inversion Hk as [|? ? Hpos Hk']; subst. simpl in Hpos.
    rewrite (Hkeep k Hk'). apply Hkeep1.
    apply Forall_forall. intros j _. lia.
Qed.

Lemma place_all_app (line : list N) m1 : forall m2 buf,
  place_all line (m1 ++ m2) buf
  = do buf' <- place_all line m1 buf; place_all line m2 buf'.
Proof.
  induction m1 as [|[pos py] m1 IH]; intros m2 buf; simpl; [reflexivity|].
  destruct (place_token _ pos py buf); simpl; [apply IH|reflexivity|reflexivity].
Qed.

(** The first character of a token lands on the column of its character. *)
Lemma place_token_first (line buf : list N) pos t rest :
  length buf = length line ->
  pos < length line ->
  exists buf',
    place_token (seq 0 (min (length (t :: rest)) (length line - pos))) pos
      (t :: rest) buf = Done buf' /\
    length buf' = length line /\
    buf' !! pos = Some t.
Proof.
  intros Hlen Hpos.
  destruct (min (length (t :: rest)) (length line - pos)) as [|n] eqn:Hn;
    [cbn [length] in Hn; lia|].
  pose proof (range_in_token line (t :: rest) buf pos Hlen) as Hjs.
  rewrite Hn in Hjs. simpl in Hjs |- *.
  inversion Hjs as [|? ? _ Hrest]; subst.
  destruct (Nat.ltb_spec (pos + 0) (length buf)) as [_|Hge]; [|lia].
  destruct (place_token_spec pos (t :: rest) (seq 1 n) (<[pos + 0 := t]> buf))
    as (buf' & Hrun & Hlen' & Hkeep).
  { eapply Forall_impl; [exact Hrest|]. simpl. intros a [? ?].
    rewrite length_insert. auto. }
  exists buf'. split; [exact Hrun|].
  rewrite length_insert in Hlen'. split; [lia|].
  rewrite Hkeep.
  - rewrite Nat.add_0_r. apply list_lookup_insert_eq. lia.
  - apply Forall_forall. intros j Hj. apply elem_of_seq in Hj. lia.
Qed.

(** The buffer variant keeps the length of the line and puts the first
    character of every token on the column of its character. *)
Lemma working_aligned (line : list N) result_lines :
  existsb is_chinese line = true ->
  exists pinyin_line,
    working_line_step pinyin result_lines line
    = Done (result_lines ++ [pinyin_line; line]) /\
    length pinyin_line = length line /\
    (forall i c t rest,
       line !! i = Some c -> is_chinese c = true -> pinyin c = t :: rest ->
       pinyin_line !! i = Some t).
Proof.
  intros H. unfold working_line_step.
  rewrite (chinese_line_not_blank line H), collect_mapping_closed. simpl.
  destruct (mapping_of pinyin 0 line) as [|e m] eqn:Hm;
    [apply mapping_of_none in Hm; congruence|].
  rewrite <- Hm. clear e m Hm.
  destruct (place_all_spec line (mapping_of pinyin 0 line) (repeat Char.space (length line)))
    as (buf & Hrun & Hlen & _); [apply repeat_length|].
  rewrite Hrun. simpl. exists buf.
  split; [rewrite <- app_assoc; reflexivity|]. split; [exact Hlen|].
  intros i c t rest Hi Hc Ht.
  pose proof (lookup_lt_Some _ _ _ Hi) as Hlt.
  rewrite <- (take_drop_middle line i c Hi), mapping_of_app in Hrun.
  simpl in Hrun. rewrite Hc, Ht, length_take_le in Hrun by lia.
  rewrite place_all_app in Hrun.
  destruct (place_all_spec line (mapping_of pinyin 0 (take i line))
              (repeat Char.space (length line)))
    as (buf0 & Hrun0 & Hlen0 & _); [apply repeat_length|].
  rewrite (take_drop_middle line i c Hi) in Hrun.
  rewrite Hrun0 in Hrun. simpl in Hrun.
  destruct (place_token_first line buf0 i t rest Hlen0 Hlt)
    as (buf1 & Hrun1 & Hlen1 & Hfirst).
  simpl in Hrun1. rewrite Hrun1 in Hrun. simpl in Hrun.
  destruct (place_all_spec line (mapping_of pinyin (S i) (drop (S i) line)) buf1 Hlen1)
    as (buf2 & Hrun2 & _ & Hkeep).
  rewrite Hrun2 in Hrun. injection Hrun as <-.
  rewrite Hkeep; [exact Hfirst|].
  eapply Forall_impl; [apply mapping_of_range|]. simpl. intros; lia.
Qed.

End WorkingFacts.

(** * Further properties *)

(** ** Splitting and joining *)

Lemma split_lines_no_newline s : Forall no_newline (split_lines s).
Proof.
  induction s as [|c s IH]; simpl; [repeat constructor|].
  destruct (N.eqb_spec c Char.newline) as [->|Hc].
  - constructor; [constructor|exact IH].
  - destruct (split_lines s) as [|l ls]; [repeat constructor; exact Hc|].
    inversion IH as [|? ? Hl Hls]; subst.
    constructor; [constructor; assumption|exact Hls].
Qed.

Lemma split_lines_single l : no_newline l -> split_lines l = [l].
Proof.
  induction 1 as [|c l Hc _ IH]; [reflexivity|].
  simpl. destruct (N.eqb_spec c Char.newline) as [->|_]; [congruence|].
  rewrite IH. reflexivity.
Qed.

Lemma split_lines_app a b :
  no_newline a ->
  split_lines (a ++ Char.newline :: b) = a :: split_lines b.
Proof.
  induction 1 as [|c a Hc _ IH]; [reflexivity|].
  simpl. destruct (N.eqb_spec c Char.newline) as [->|_]; [congruence|].
  rewrite IH. reflexivity.
Qed.

Lemma split_join (ls : list (list N)) :
  ls <> [] -> Forall no_newline ls -> split_lines (join_lines ls) = ls.
Proof.
  induction ls as [|l ls IH]; intros Hne Hall; [congruence|].
  inversion Hall as [|? ? Hl Hls]; subst.
  destruct ls as [|l' ls].
  - apply split_lines_single, Hl.
  - change (join_lines (l :: l' :: ls))
      with (l ++ Char.newline :: join_lines (l' :: ls)).
    rewrite split_lines_app by exact Hl.
    rewrite IH by (try exact Hls; discriminate). reflexivity.
Qed.

Lemma join_lines_app (xs ys : list (list N)) :
  xs <> [] -> ys <> [] ->
  join_lines (xs ++ ys) = join_lines xs ++ Char.newline :: join_lines ys.
Proof.
  induction xs as [|x xs IH]; intros Hx Hy; [congruence|].
  destruct xs as [|x' xs].
  - destruct ys; [congruence|reflexivity].
  - change (join_lines ((x :: x' :: xs) ++ ys))
      with (x ++ Char.newline :: join_lines ((x' :: xs) ++ ys)).
    rewrite IH by (try exact Hy; discriminate).
    change (join_lines (x :: x' :: xs))
      with (x ++ Char.newline :: join_lines (x' :: xs)).
    rewrite <- app_assoc. reflexivity.
Qed.

(** The lines of a text joined to another are the lines of the one followed
    by the lines of the other. *)
Lemma split_lines_concat a b :
  split_lines (a ++ Char.newline :: b) = split_lines a ++ split_lines b.
Proof.
  induction a as [|c a IH]; [reflexivity|].
  simpl. destruct (c =? Char.newline)%N.
  - rewrite IH. reflexivity.
  - rewrite IH. destruct (split_lines_cons a) as (l & ls & H). rewrite H.
    reflexivity.
Qed.

Lemma line_out_cons pinyin line : line_out pinyin line <> [].
Proof. unfold line_out. destruct (existsb is_chinese line); discriminate. Qed.

Lemma flat_map_line_out_cons pinyin lines :
  lines <> [] -> flat_map (line_out pinyin) lines <> [].
Proof.
  destruct lines as [|l ls]; [congruence|]. intros _. simpl.
  pose proof (line_out_cons pinyin l).
  destruct (line_out pinyin l); [congruence|discriminate].
Qed.

Lemma split_lines_not_nil s : split_lines s <> [].
Proof. destruct (split_lines_cons s) as (l & ls & H). rewrite H. discriminate. Qed.

(** ** The function that [process_file] calls *)

(** X1. A text with no character in U+4E00..U+9FFF is returned as it is,
    whatever the fuel. *)
Theorem optimized_plain_document :
  forall (pinyin : N -> list N) (fuel : nat) (text : list N),
    existsb is_chinese text = false ->
    add_pinyin_preserve_format_optimized pinyin fuel text = Done text.
Proof. intros pinyin fuel text H. apply plain_document_unchanged, H. Qed.

Lemma optimized_plain_document_witness :
  add_pinyin_preserve_format_optimized demo_pinyin 0
    (lit "hello" ++ Char.newline :: Char.tab :: lit " world")
  = Done (lit "hello" ++ Char.newline :: Char.tab :: lit " world").
Proof.
  apply (optimized_plain_document demo_pinyin 0
           (lit "hello" ++ Char.newline :: Char.tab :: lit " world")).
  reflexivity.
Defined.

(** X2. The lines are converted one by one: the result for two texts joined
    by a newline is the result for the first, a newline, and the result for
    the second. *)
Theorem optimized_concat :
  forall (pinyin : N -> list N) (fuel : nat) (a b : list N),
    length (a ++ Char.newline :: b) < fuel ->
    exists out_a out_b,
      add_pinyin_preserve_format_optimized pinyin fuel a = Done out_a /\
      add_pinyin_preserve_format_optimized pinyin fuel b = Done out_b /\
      add_pinyin_preserve_format_optimized pinyin fuel (a ++ Char.newline :: b)
      = Done (out_a ++ Char.newline :: out_b).
Proof.
  intros pinyin fuel a b Hfuel.
  rewrite length_app in Hfuel. simpl in Hfuel.
  exists (join_lines (flat_map (line_out pinyin) (split_lines a))),
         (join_lines (flat_map (line_out pinyin) (split_lines b))).
  split; [apply optimized_closed; lia|].
  split; [apply optimized_closed; lia|].
  rewrite optimized_closed by (rewrite length_app; simpl; lia).
  rewrite split_lines_concat, flat_map_app.
  rewrite join_lines_app
    by (apply flat_map_line_out_cons, split_lines_not_nil).
  reflexivity.
Qed.

Lemma optimized_concat_witness :
  exists out_a out_b,
    add_pinyin_preserve_format_optimized demo_pinyin 20 ni_hao_world = Done out_a /\
    add_pinyin_preserve_format_optimized demo_pinyin 20 [Char.ni] = Done out_b /\
    add_pinyin_preserve_format_optimized demo_pinyin 20
      (ni_hao_world ++ Char.newline :: [Char.ni])
    = Done (out_a ++ Char.newline :: out_b).
Proof.
  apply (optimized_concat demo_pinyin 20 ni_hao_world [Char.ni]).
  vm_compute. lia.
Defined.

Lemma split_lines_Forall (P : N -> Prop) s :
  Forall P s -> Forall (Forall P) (split_lines s).
Proof.
  induction 1 as [|c s Hc _ IH]; simpl; [repeat constructor|].
  destruct (c =? Char.newline)%N.
  - constructor; [constructor|exact IH].
  - destruct (split_lines s) as [|l ls]; [repeat constructor; exact Hc|].
    inversion IH as [|? ? Hl Hls]; subst.
    constructor; [constructor; assumption|exact Hls].
Qed.

Lemma line_out_ext (p q : N -> list N) (lines : list (list N)) :
  Forall (Forall (fun c => is_chinese c = true -> p c = q c)) lines ->
  flat_map (line_out p) lines = flat_map (line_out q) lines.
Proof.
  induction 1 as [|l lines Hl _ IH]; [reflexivity|].
  simpl. rewrite IH. f_equal. unfold line_out.
  rewrite (cells_ext p q l Hl). reflexivity.
Qed.

(** X3. The lookup is asked for the characters in U+4E00..U+9FFF only: two
    lookups that agree on those of the text give the same result. *)
Theorem optimized_lookup_agree :
  forall (p q : N -> list N) (fuel : nat) (text : list N),
    length text < fuel ->
    Forall (fun c => is_chinese c = true -> p c = q c) text ->
    add_pinyin_preserve_format_optimized p fuel text
    = add_pinyin_preserve_format_optimized q fuel text.
Proof.
  intros p q fuel text Hfuel Hagree.
  rewrite !optimized_closed by exact Hfuel. do 2 f_equal.
  apply line_out_ext, split_lines_Forall, Hagree.
Qed.

Lemma optimized_lookup_agree_witness :
  add_pinyin_preserve_format_optimized demo_pinyin 10 ni_hao_world
  = add_pinyin_preserve_format_optimized
      (fun c => if is_chinese c then demo_pinyin c else []) 10 ni_hao_world.
Proof.
  apply (optimized_lookup_agree demo_pinyin
           (fun c => if is_chinese c then demo_pinyin c else []) 10 ni_hao_world).
  - vm_compute. lia.
  - apply Forall_forall. intros c _ Hc. rewrite Hc. reflexivity.
Defined.

Lemma no_newline_rstrip s : no_newline s -> no_newline (rstrip s).
Proof.
  intros H. destruct (rstrip_suffix s) as (t & Hs & _).
  unfold no_newline in *. rewrite Hs in H. apply Forall_app in H as [H _]. exact H.
Qed.

Lemma no_newline_cells pinyin line :
  (forall c, is_chinese c = true -> no_newline (pinyin c)) ->
  no_newline line -> no_newline (cells pinyin line).
Proof.
  intros Htok. induction 1 as [|c line Hc _ IH]; [constructor|].
  change (cells pinyin (c :: line)) with (cell pinyin c ++ cells pinyin line).
  apply Forall_app. split; [|exact IH].
  unfold cell. destruct (is_chinese c) eqn:E.
  - apply Forall_app. split; [apply Htok, E|repeat constructor; discriminate].
  - destruct (isspace c); repeat constructor; [exact Hc|discriminate].
Qed.

Lemma no_newline_line_out pinyin lines :
  (forall c, is_chinese c = true -> no_newline (pinyin c)) ->
  Forall no_newline lines -> Forall no_newline (flat_map (line_out pinyin) lines).
Proof.
  intros Htok. induction 1 as [|l lines Hl _ IH]; [constructor|].
  simpl. apply Forall_app. split; [|exact IH].
  unfold line_out. destruct (existsb is_chinese l); repeat constructor;
    try exact Hl.
  apply no_newline_rstrip, no_newline_cells; assumption.
Qed.

(** X4. When no token has a newline in it, the lines of the returned text
    are the [result_lines] of the loop: the input lines in their order, each
    once and unchanged, some preceded by one annotation line; so a text of N
    lines gives a text of between N and 2N lines. *)
Theorem optimized_resplit :
  forall (pinyin : N -> list N) (fuel : nat) (text : list N),
    length text < fuel ->
    (forall c, is_chinese c = true -> no_newline (pinyin c)) ->
    exists out,
      add_pinyin_preserve_format_optimized pinyin fuel text = Done out /\
      for_lines pinyin fuel (split_lines text) [] = Done (split_lines out) /\
      annotated (split_lines text) (split_lines out) /\
      length (split_lines text) <= length (split_lines out) /\
      length (split_lines out) <= 2 * length (split_lines text).
Proof.
  intros pinyin fuel text Hfuel Htok.
  exists (join_lines (flat_map (line_out pinyin) (split_lines text))).
  assert (Hsplit : split_lines (join_lines (flat_map (line_out pinyin) (split_lines text)))
                   = flat_map (line_out pinyin) (split_lines text)).
  { apply split_join.
    - apply flat_map_line_out_cons, split_lines_not_nil.
    - apply no_newline_line_out; [exact Htok|apply split_lines_no_newline]. }
  rewrite Hsplit.
  pose proof (annotated_line_out pinyin (split_lines text)) as Ha.
  pose proof (annotated_length _ _ Ha) as [Hlo Hhi].
  split; [apply optimized_closed, Hfuel|].
  split; [apply (for_lines_closed pinyin fuel _ []), split_lines_fuel, Hfuel|].
  auto.
Qed.

Lemma demo_pinyin_no_newline c :
  is_chinese c = true -> no_newline (demo_pinyin c).
Proof.
  intros Hc. unfold demo_pinyin.
  destruct (c =? Char.ni)%N; [repeat constructor; discriminate|].
  destruct (c =? Char.hao)%N; [repeat constructor; discriminate|].
  repeat constructor. intros ->. discriminate Hc.
Qed.

Lemma optimized_resplit_witness :
  exists out,
    add_pinyin_preserve_format_optimized demo_pinyin 20
      (ni_hao_world ++ Char.newline :: lit "hi") = Done out /\
    for_lines demo_pinyin 20 (split_lines (ni_hao_world ++ Char.newline :: lit "hi")) []
    = Done (split_lines out) /\
    annotated (split_lines (ni_hao_world ++ Char.newline :: lit "hi")) (split_lines out) /\
    length (split_lines (ni_hao_world ++ Char.newline :: lit "hi"))
    <= length (split_lines out) /\
    length (split_lines out)
    <= 2 * length (split_lines (ni_hao_world ++ Char.newline :: lit "hi")).
Proof.
  apply (optimized_resplit demo_pinyin 20 (ni_hao_world ++ Char.newline :: lit "hi")).
  - vm_compute. lia.
  - exact demo_pinyin_no_newline.
Defined.

(** X5. The loop adds one annotation line for each line that has a
    character in U+4E00..U+9FFF and none for the others: N lines, M of them
    with such a character, give N + M lines. *)
Theorem optimized_line_count :
  forall (pinyin : N -> list N) (fuel : nat) (text : list N),
    length text < fuel ->
    exists result_lines,
      for_lines pinyin fuel (split_lines text) [] = Done result_lines /\
      length result_lines
      = length (split_lines text)
        + length (List.filter (existsb is_chinese) (split_lines text)).
Proof.
  intros pinyin fuel text Hfuel.
  exists (flat_map (line_out pinyin) (split_lines text)).
  split; [apply (for_lines_closed pinyin fuel _ []), split_lines_fuel, Hfuel|].
  induction (split_lines text) as [|l ls IH]; [reflexivity|].
  simpl. rewrite length_app, IH. unfold line_out.
  destruct (existsb is_chinese l); simpl; lia.
Qed.

Lemma optimized_line_count_witness :
  exists result_lines,
    for_lines demo_pinyin 20 (split_lines (ni_hao_world ++ Char.newline :: lit "hi")) []
    = Done result_lines /\
    length result_lines
    = length (split_lines (ni_hao_world ++ Char.newline :: lit "hi"))
      + length (List.filter (existsb is_chinese)
                  (split_lines (ni_hao_world ++ Char.newline :: lit "hi"))).
Proof.
  apply (optimized_line_count demo_pinyin 20 (ni_hao_world ++ Char.newline :: lit "hi")).
  vm_compute. lia.
Defined.

(** ** [process_file] *)








(** ** The buffer variant, column by column *)

Section WorkingColumns.

Variable pinyin : char -> str.

Lemma place_token_lookup pos py js : forall (buf : list N),
  Forall (fun j => j < length py /\ pos + j < length buf) js ->
  exists buf',
    place_token js pos py buf = Done buf' /\
    length buf' = length buf /\
    (forall j, j ∈ js -> buf' !! (pos + j) = py !! j).
Proof.
  induction js as [|j js IH]; intros buf Hjs; simpl.
  - exists buf. split; [reflexivity|]. split; [reflexivity|].
    intros j Hj. inversion Hj.
  - inversion Hjs as [|? ? [Hpy Hbuf] Hrest]; subst.
    destruct (lookup_lt_is_Some_2 py j Hpy) as [x Hx]. rewrite Hx.
    destruct (Nat.ltb_spec (pos + j) (length buf)) as [_|Hge]; [|lia].
    assert (Hrest' : Forall (fun j0 => j0 < length py /\
                                       pos + j0 < length (<[pos + j := x]> buf)) js).
    { eapply Forall_impl; [exact Hrest|]. simpl. intros a [? ?].
      rewrite length_insert. auto. }
    destruct (IH _ Hrest') as (buf' & Hrun & Hlen & Hget).
    destruct (place_token_spec pos py js _ Hrest') as (buf'' & Hrun' & _ & Hkeep).
    rewrite Hrun in Hrun'. injection Hrun' as <-.
    exists buf'. split; [exact Hrun|].
    rewrite length_insert in Hlen. split; [exact Hlen|].
    intros j0 Hj0. apply elem_of_cons in Hj0 as [->|Hj0]; [|apply Hget, Hj0].
    destruct (decide (j ∈ js)) as [Hin|Hnotin]; [apply Hget, Hin|].
    rewrite Hkeep.
    + rewrite list_lookup_insert_eq by lia. symmetry. exact Hx.
    + apply Forall_forall. intros a Ha Heq.
      assert (a = j) by lia. subst a. contradiction.
Qed.

(** All tokens: a column outside the span of every entry is left alone. *)
Lemma place_all_outside (line : list N) mapping : forall (buf : list N),
  length buf = length line ->
  exists buf',
    place_all line mapping buf = Done buf' /\
    length buf' = length line /\
    (forall k,
       Forall (fun e : nat * list N => ~ (e.1 <= k < e.1 + length e.2)) mapping ->
       buf' !! k = buf !! k).
Proof.
  induction mapping as [|[pos py] rest IH]; intros buf Hlen; simpl.
  - exists buf. auto.
  - destruct (place_token_spec pos py _ buf (range_in_token line py buf pos Hlen))
      as (buf1 & Hrun1 & Hlen1 & Hkeep1).
    rewrite Hrun1. simpl.
    destruct (IH buf1) as (buf' & Hrun & Hlen' & Hkeep); [lia|].
    exists buf'. split; [exact Hrun|]. split; [exact Hlen'|].
    intros k Hk. inversion Hk as [|? ? Hpos Hk']; subst. simpl in Hpos.
    rewrite (Hkeep k Hk'). apply Hkeep1.
    apply Forall_forall. intros j Hj. apply elem_of_seq in Hj. lia.
Qed.

Lemma mapping_of_elem chars : forall a e,
  e ∈ mapping_of pinyin a chars ->
  exists c, chars !! (e.1 - a) = Some c /\ a <= e.1 /\
            is_chinese c = true /\ e.2 = pinyin c.
Proof.
  induction chars as [|c rest IH]; intros a e He; simpl in He; [inversion He|].
  assert (Hrest : e ∈ mapping_of pinyin (S a) rest ->
                  exists c0, (c :: rest) !! (e.1 - a) = Some c0 /\ a <= e.1 /\
                             is_chinese c0 = true /\ e.2 = pinyin c0).
  { intros H. destruct (IH _ _ H) as (c0 & Hc0 & Hle & Hch & He2).
    exists c0. replace (e.1 - a) with (S (e.1 - S a)) by lia.
    split; [exact Hc0|]. split; [lia|]. auto. }
  destruct (is_chinese c) eqn:Hc; [|exact (Hrest He)].
  apply elem_of_cons in He as [->|He]; [|exact (Hrest He)].
  exists c. simpl. rewrite Nat.sub_diag. auto.
Qed.

Lemma working_run (line : list N) result_lines :
  existsb is_chinese line = true ->
  exists buf,
    place_all line (mapping_of pinyin 0 line) (repeat Char.space (length line))
    = Done buf /\
    working_line_step pinyin result_lines line
    = Done (result_lines ++ [buf; line]) /\
    length buf = length line.
Proof.
  intros H.
  destruct (place_all_spec line (mapping_of pinyin 0 line)
              (repeat Char.space (length line)))
    as (buf & Hrun & Hlen & _); [apply repeat_length|].
  exists buf. split; [exact Hrun|]. split; [|exact Hlen].
  unfold working_line_step.
  rewrite (chinese_line_not_blank line H), collect_mapping_closed. simpl.
  destruct (mapping_of pinyin 0 line) as [|e m] eqn:Hm;
    [apply mapping_of_none in Hm; congruence|].
  rewrite Hrun. simpl. rewrite <- app_assoc. reflexivity.
Qed.

Lemma lookup_repeat_space n k : k < n -> repeat Char.space n !! k = Some Char.space.
Proof.
  revert k. induction n as [|n IH]; intros k Hk; [lia|].
  destruct k as [|k]; [reflexivity|]. simpl. apply IH. lia.
Qed.

End WorkingColumns.

(** X9. In [add_pinyin_preserve_format_working] the annotation line of a
    line with a qualifying character has the length of the line, and the
    token of the qualifying character of column [i] is written from column
    [i] on, as far as the line goes and at least up to the next qualifying
    character: its character [j] is at column [i + j] when [i + j] is in
    the line and none of the [j] characters after column [i] is
    qualifying. *)
Theorem working_token_visible :
  forall (pinyin : N -> list N) (line : list N) (result_lines : list (list N))
         (i j : nat) (c : N),
    line !! i = Some c ->
    is_chinese c = true ->
    j < length (pinyin c) ->
    i + j < length line ->
    existsb is_chinese (take j (drop (S i) line)) = false ->
    exists pinyin_line,
      working_line_step pinyin result_lines line
      = Done (result_lines ++ [pinyin_line; line]) /\
      length pinyin_line = length line /\
      pinyin_line !! (i + j) = pinyin c !! j.
Proof.
  intros pinyin line result_lines i j c Hi Hc Hj Hij Hfree.
  assert (H : existsb is_chinese line = true).
  { apply existsb_exists. exists c. split; [|exact Hc].
    apply list_elem_of_In, (list_elem_of_lookup_2 _ _ _ Hi). }
  destruct (working_run pinyin line result_lines H) as (buf & Hrun & Hstep & Hlen).
  exists buf. split; [exact Hstep|]. split; [exact Hlen|].
  pose proof (lookup_lt_Some _ _ _ Hi) as Hlt.
  rewrite <- (take_drop_middle line i c Hi), mapping_of_app in Hrun.
  simpl in Hrun. rewrite Hc, length_take_le in Hrun by lia.
  rewrite place_all_app in Hrun.
  rewrite (take_drop_middle line i c Hi) in Hrun.
  destruct (place_all_spec line (mapping_of pinyin 0 (take i line))
              (repeat Char.space (length line)))
    as (buf0 & Hrun0 & Hlen0 & _); [apply repeat_length|].
  rewrite Hrun0 in Hrun. simpl in Hrun.
  destruct (place_token_lookup i (pinyin c)
              (seq 0 (min (length (pinyin c)) (length line - i))) buf0
              (range_in_token line (pinyin c) buf0 i Hlen0))
    as (buf1 & Hrun1 & Hlen1 & Hget).
  rewrite Hrun1 in Hrun. simpl in Hrun.
  destruct (place_all_spec line (mapping_of pinyin (S i) (drop (S i) line)) buf1)
    as (buf2 & Hrun2 & _ & Hkeep); [lia|].
  rewrite Hrun2 in Hrun. injection Hrun as <-.
  rewrite Hkeep; [apply Hget, elem_of_seq; lia|].
  rewrite <- (take_drop j (drop (S i) line)), mapping_of_app.
  apply Forall_app. split.
  - rewrite (proj2 (mapping_of_none pinyin _ _) Hfree). constructor.
  - rewrite length_take_le by (rewrite length_drop; lia).
    eapply Forall_impl; [apply mapping_of_range|]. simpl. intros; lia.
Qed.

Lemma working_token_visible_witness :
  exists pinyin_line,
    working_line_step demo_pinyin [] ni_hao_world
    = Done ([] ++ [pinyin_line; ni_hao_world]) /\
    length pinyin_line = length ni_hao_world /\
    pinyin_line !! (1 + 2) = demo_pinyin Char.hao !! 2.
Proof.
  apply (working_token_visible demo_pinyin ni_hao_world [] 1 2 Char.hao).
  - reflexivity.
  - reflexivity.
  - simpl. lia.
  - vm_compute. lia.
  - reflexivity.
Defined.

(** X10. In [add_pinyin_preserve_format_working] a column of the annotation
    line that is in the span of no token, the spans starting at the columns
    of the qualifying characters, holds a space. *)
Theorem working_gaps_hold_spaces :
  forall (pinyin : N -> list N) (line : list N) (result_lines : list (list N))
         (k : nat),
    existsb is_chinese line = true ->
    k < length line ->
    ~ in_span pinyin line k ->
    exists pinyin_line,
      working_line_step pinyin result_lines line
      = Done (result_lines ++ [pinyin_line; line]) /\
      pinyin_line !! k = Some Char.space.
Proof.
  intros pinyin line result_lines k H Hk Hout.
  destruct (working_run pinyin line result_lines H) as (buf & Hrun & Hstep & Hlen).
  exists buf. split; [exact Hstep|].
  destruct (place_all_outside line (mapping_of pinyin 0 line)
              (repeat Char.space (length line)))
    as (buf' & Hrun' & _ & Hkeep); [apply repeat_length|].
  rewrite Hrun in Hrun'. injection Hrun' as <-.
  rewrite Hkeep; [apply lookup_repeat_space, Hk|].
  apply Forall_forall. intros e He Hin. apply Hout.
  destruct (mapping_of_elem pinyin _ _ _ He) as (c & Hc & _ & Hch & He2).
  exists e.1, c. rewrite Nat.sub_0_r in Hc. rewrite He2 in Hin. auto.
Qed.

Lemma working_gaps_hold_spaces_witness :
  exists pinyin_line,
    working_line_step demo_pinyin [] ni_hao_world
    = Done ([] ++ [pinyin_line; ni_hao_world]) /\
    pinyin_line !! 5 = Some Char.space.
Proof.
  apply (working_gaps_hold_spaces demo_pinyin ni_hao_world [] 5).
  - reflexivity.
  - vm_compute. lia.
  - intros (i & c & Hi & Hc & Hk).
    destruct i as [|[|i]]; simpl in Hi.
    + injection Hi as <-. vm_compute in Hk. lia.
    + injection Hi as <-. vm_compute in Hk. lia.
    + assert (Hin : c ∈ lit ", world") by (apply (list_elem_of_lookup_2 _ i), Hi).
      vm_compute in Hin.
      repeat (apply elem_of_cons in Hin as [->|Hin]; [discriminate Hc|]).
      inversion Hin.
Defined.

(** ** The loops of the other variants *)

Lemma while_index_closed {St : Type} (body : St -> nat -> N -> St) fuel :
  forall (line : list N) i s,
    i <= length line ->
    length line - i < fuel ->
    while_index body fuel line i s = Done (fold_index body i (drop i line) s).
Proof.
  induction fuel as [|fuel IH]; intros line i s Hle Hfuel; [lia|].
  cbn [while_index]. destruct (Nat.ltb_spec i (length line)) as [Hlt|Hge].
  - destruct (lookup_lt_is_Some_2 line i Hlt) as [c Hc].
    rewrite Hc, IH by lia. rewrite (drop_S line c i Hc). reflexivity.
  - rewrite drop_ge by lia. reflexivity.
Qed.

Lemma while_index_from_start {St : Type} (body : St -> nat -> N -> St) fuel
    (line : list N) s :
  length line < fuel ->
  while_index body fuel line 0 s = Done (fold_index body 0 line s).
Proof. intros H. rewrite while_index_closed by lia. reflexivity. Qed.

Lemma for_each_line_closed step (out : list N -> list (list N)) lines :
  Forall (fun line => forall result_lines,
            step result_lines line = Done (result_lines ++ out line)) lines ->
  forall result_lines,
    for_each_line step lines result_lines
    = Done (result_lines ++ flat_map out lines).
Proof.
  induction 1 as [|line lines Hline _ IH]; intros result_lines; simpl.
  - rewrite app_nil_r. reflexivity.
  - rewrite Hline. simpl. rewrite IH, <- app_assoc. reflexivity.
Qed.

Lemma fold_left_append (g : list N -> N -> list N) (f : N -> list N) :
  (forall acc c, g acc c = acc ++ f c) ->
  forall (l : list N) acc, fold_left g l acc = acc ++ flat_map f l.
Proof.
  intros Hg. induction l as [|c l IH]; intros acc; simpl.
  - rewrite app_nil_r. reflexivity.
  - rewrite IH, Hg, <- app_assoc. reflexivity.
Qed.

Lemma fold_index_append {St : Type} (body : St -> nat -> N -> St)
    (proj : St -> list N) (f : N -> list N) :
  (forall s i c, proj (body s i c) = proj s ++ f c) ->
  forall l i s, proj (fold_index body i l s) = proj s ++ flat_map f l.
Proof.
  intros Hbody. induction l as [|c l IH]; intros i s; simpl.
  - rewrite app_nil_r. reflexivity.
  - rewrite IH, Hbody, <- app_assoc. reflexivity.
Qed.

Section PaddedVariants.

Variable pinyin : char -> str.

Lemma ljust_body_cell width acc c :
  ljust_body pinyin width acc c = acc ++ ljust_cell pinyin width c.
Proof. unfold ljust_body, ljust_cell. destruct (is_chinese c); reflexivity. Qed.

Lemma first_body_cell st i c :
  (first_body pinyin st i c).1 = st.1 ++ ljust_cell pinyin 3 c.
Proof.
  destruct st as [pl ol]. unfold first_body, ljust_cell.
  destruct (is_chinese c); reflexivity.
Qed.

Lemma blank_line_out width line :
  py_not (strip line) = true -> ljust_out pinyin width line = [line].
Proof.
  intros Hblank. unfold ljust_out.
  destruct (existsb is_chinese line) eqn:H; [|reflexivity].
  rewrite (chinese_line_not_blank line H) in Hblank. discriminate.
Qed.

Lemma first_line_step_closed fuel result_lines line :
  length line < fuel ->
  first_line_step pinyin fuel result_lines line
  = Done (result_lines ++ ljust_out pinyin 3 line).
Proof.
  intros Hfuel. unfold first_line_step.
  rewrite while_index_from_start by exact Hfuel. cbn [bind].
  rewrite (fold_index_append (first_body pinyin) fst (ljust_cell pinyin 3)
             first_body_cell).
  unfold ljust_out. simpl.
  destruct (existsb is_chinese line); [rewrite <- app_assoc|]; reflexivity.
Qed.

Lemma new_line_step_closed fuel result_lines line :
  length line < fuel ->
  new_line_step pinyin fuel result_lines line
  = Done (result_lines ++ ljust_out pinyin 3 line).
Proof.
  intros Hfuel. unfold new_line_step.
  destruct (py_not (strip line)) eqn:Hblank;
    [rewrite blank_line_out by exact Hblank; reflexivity|].
  rewrite while_index_from_start by exact Hfuel. cbn [bind].
  assert (Hfold : fold_left (fun acc c => ljust_body pinyin (length [c] + 2) acc c)
                    line []
                  = flat_map (ljust_cell pinyin 3) line).
  { apply (fold_left_append _ (ljust_cell pinyin 3)).
    intros acc c. apply ljust_body_cell. }
  rewrite Hfold. unfold ljust_out.
  destruct (existsb is_chinese line); [rewrite <- app_assoc|]; reflexivity.
Qed.

Lemma final_line_step_closed fuel result_lines line :
  length line < fuel ->
  final_line_step pinyin fuel result_lines line
  = Done (result_lines ++ ljust_out pinyin 2 line).
Proof.
  intros Hfuel. unfold final_line_step.
  destruct (py_not (strip line)) eqn:Hblank;
    [rewrite blank_line_out by exact Hblank; reflexivity|].
  rewrite while_index_from_start by exact Hfuel. cbn [bind].
  rewrite (fold_index_append (fun acc _ c => ljust_body pinyin 2 acc c)
             (fun s => s) (ljust_cell pinyin 2))
    by (intros; apply ljust_body_cell).
  unfold ljust_out. simpl.
  destruct (existsb is_chinese line); [rewrite <- app_assoc|]; reflexivity.
Qed.

Lemma padded_lines_closed step width fuel text :
  (forall result_lines line,
     length line < fuel ->
     step result_lines line = Done (result_lines ++ ljust_out pinyin width line)) ->
  length text < fuel ->
  for_each_line step (split_lines text) []
  = Done (flat_map (ljust_out pinyin width) (split_lines text)).
Proof.
  intros Hstep Hfuel.
  rewrite (for_each_line_closed step (ljust_out pinyin width)); [reflexivity|].
  eapply Forall_impl; [apply (split_lines_fuel text fuel Hfuel)|].
  simpl. intros line Hline result_lines. apply Hstep, Hline.
Qed.

End PaddedVariants.

(** X11. [add_pinyin_preserve_format] and [add_pinyin_preserve_format_new]
    return the same text for every input. *)
Theorem first_equals_new :
  forall (pinyin : N -> list N) (fuel : nat) (text : list N),
    length text < fuel ->
    exists out,
      add_pinyin_preserve_format pinyin fuel text = Done out /\
      add_pinyin_preserve_format_new pinyin fuel text = Done out.
Proof.
  intros pinyin fuel text Hfuel.
  exists (join_lines (flat_map (ljust_out pinyin 3) (split_lines text))).
  unfold add_pinyin_preserve_format, add_pinyin_preserve_format_new.
  rewrite (padded_lines_closed pinyin (first_line_step pinyin fuel) 3 fuel text)
    by (try exact Hfuel; intros; apply first_line_step_closed; assumption).
  rewrite (padded_lines_closed pinyin (new_line_step pinyin fuel) 3 fuel text)
    by (try exact Hfuel; intros; apply new_line_step_closed; assumption).
  split; reflexivity.
Qed.

Lemma first_equals_new_witness :
  exists out,
    add_pinyin_preserve_format demo_pinyin 20
      (ni_hao_world ++ Char.newline :: Char.tab :: lit "x ") = Done out /\
    add_pinyin_preserve_format_new demo_pinyin 20
      (ni_hao_world ++ Char.newline :: Char.tab :: lit "x ") = Done out.
Proof.
  apply (first_equals_new demo_pinyin 20
           (ni_hao_world ++ Char.newline :: Char.tab :: lit "x ")).
  vm_compute. lia.
Defined.

(** ** The two buffer variants *)

Section BufferVariants.

Variable pinyin : char -> str.

Lemma slice_body_eq (line buf py : list N) pos :
  length buf = length line ->
  pos <= length line ->
  slice_body line buf (pos, py)
  = take pos buf
    ++ take (min (length py) (length line - pos)) py
    ++ drop (pos + min (length py) (length line - pos)) buf.
Proof.
  intros Hlen Hpos. unfold slice_body, slice_assign. rewrite Hlen.
  replace (min pos (length line)) with pos by lia.
  replace (min (pos + length py) (length line) - pos)
    with (min (length py) (length line - pos)) by lia.
  replace (max pos (min (min (pos + length py) (length line)) (length line)))
    with (pos + min (length py) (length line - pos)) by lia.
  reflexivity.
Qed.

Lemma slice_body_length (line buf py : list N) pos :
  length buf = length line ->
  pos <= length line ->
  length (slice_body line buf (pos, py)) = length line.
Proof.
  intros Hlen Hpos. rewrite slice_body_eq by assumption.
  rewrite !length_app, !length_take, length_drop. lia.
Qed.

(** The loop over [range] writes what the slice assignment writes. *)
Lemma place_token_slice (line buf py : list N) pos :
  length buf = length line ->
  pos <= length line ->
  place_token (seq 0 (min (length py) (length line - pos))) pos py buf
  = Done (slice_body line buf (pos, py)).
Proof.
  intros Hlen Hpos.
  pose proof (range_in_token line py buf pos Hlen) as Hjs.
  destruct (place_token_lookup pos py _ buf Hjs) as (buf' & Hrun & Hlen' & Hget).
  destruct (place_token_spec pos py _ buf Hjs) as (buf'' & Hrun' & _ & Hkeep).
  rewrite Hrun in Hrun'. injection Hrun' as <-.
  rewrite Hrun. f_equal. rewrite slice_body_eq by assumption.
  set (n := min (length py) (length line - pos)) in *.
  apply list_eq. intros k.
  destruct (Nat.lt_ge_cases k pos) as [Hk|Hk].
  - rewrite lookup_app_l by (rewrite length_take; lia).
    rewrite lookup_take_lt by exact Hk. apply Hkeep.
    apply Forall_forall. intros j _. lia.
  - rewrite lookup_app_r by (rewrite length_take; lia).
    rewrite length_take. replace (min pos (length buf)) with pos by lia.
    destruct (Nat.lt_ge_cases k (pos + n)) as [Hk'|Hk'].
    + rewrite lookup_app_l by (rewrite length_take; lia).
      rewrite lookup_take_lt by lia.
      replace k with (pos + (k - pos)) at 1 by lia.
      apply Hget, elem_of_seq. lia.
    + rewrite lookup_app_r by (rewrite length_take; lia).
      rewrite length_take. replace (min n (length py)) with n by lia.
      rewrite lookup_drop.
      replace (pos + n + (k - pos - n)) with k by lia.
      apply Hkeep. apply Forall_forall. intros j Hj.
      apply elem_of_seq in Hj. lia.
Qed.

Lemma place_all_slice (line : list N) mapping : forall (buf : list N),
  length buf = length line ->
  Forall (fun e : nat * list N => e.1 <= length line) mapping ->
  place_all line mapping buf = Done (fold_left (slice_body line) mapping buf).
Proof.
  induction mapping as [|[pos py] rest IH]; intros buf Hlen Hall; [reflexivity|].
  inversion Hall as [|? ? Hpos Hrest]; subst. simpl in Hpos.
  cbn [place_all fold_left].
  rewrite place_token_slice by assumption. cbn [bind].
  apply IH; [apply slice_body_length; assumption|exact Hrest].
Qed.

Lemma fold_slice_length (line : list N) mapping : forall (buf : list N),
  length buf = length line ->
  Forall (fun e : nat * list N => e.1 <= length line) mapping ->
  length (fold_left (slice_body line) mapping buf) = length line.
Proof.
  induction mapping as [|[pos py] rest IH]; intros buf Hlen Hall; [exact Hlen|].
  inversion Hall as [|? ? Hpos Hrest]; subst. simpl in Hpos.
  cbn [fold_left]. apply IH; [apply slice_body_length; assumption|exact Hrest].
Qed.

Lemma mapping_of_in_line (line : list N) :
  Forall (fun e : nat * list N => e.1 <= length line) (mapping_of pinyin 0 line).
Proof.
  eapply Forall_impl; [apply mapping_of_range|]. simpl. intros; lia.
Qed.

Lemma working_line_step_closed result_lines (line : list N) :
  working_line_step pinyin result_lines line
  = Done (result_lines ++ buffer_out pinyin line).
Proof.
  unfold working_line_step, buffer_out.
  destruct (existsb is_chinese line) eqn:H.
  - rewrite (chinese_line_not_blank line H), collect_mapping_closed. simpl.
    destruct (mapping_of pinyin 0 line) as [|e m] eqn:Hm;
      [apply mapping_of_none in Hm; congruence|].
    rewrite <- Hm.
    rewrite place_all_slice
      by (try apply repeat_length; apply mapping_of_in_line).
    simpl. rewrite <- app_assoc. reflexivity.
  - destruct (py_not (strip line)); [reflexivity|].
    rewrite collect_mapping_closed. simpl.
    rewrite (proj2 (mapping_of_none pinyin line 0) H). reflexivity.
Qed.

Lemma working_for_lines_closed lines : forall result_lines,
  working_for_lines pinyin lines result_lines
  = Done (result_lines ++ flat_map (buffer_out pinyin) lines).
Proof.
  induction lines as [|line lines IH]; intros result_lines; simpl.
  - rewrite app_nil_r. reflexivity.
  - rewrite working_line_step_closed. simpl. rewrite IH, <- app_assoc.
    reflexivity.
Qed.

(** The first loop of [add_pinyin_preserve_format_best]. *)
Lemma chinese_body_closed (l : list N) : forall a cs ps,
  fold_left chinese_body (combine (seq a (length l)) l) (cs, ps)
  = (cs ++ List.filter is_chinese l, ps ++ map fst (mapping_of pinyin a l)).
Proof.
  induction l as [|c l IH]; intros a cs ps; simpl.
  - rewrite !app_nil_r. reflexivity.
  - destruct (is_chinese c); rewrite IH; simpl; [rewrite <- !app_assoc|];
      reflexivity.
Qed.

Lemma filter_chinese_nil (l : list N) :
  List.filter is_chinese l = [] <-> existsb is_chinese l = false.
Proof.
  induction l as [|c l IH]; simpl; [tauto|].
  destruct (is_chinese c); simpl; [split; discriminate|exact IH].
Qed.

Lemma first_readings_single (l : list N) :
  first_readings (map (fun c => [pinyin c]) l) = Done (map pinyin l).
Proof.
  induction l as [|c l IH]; [reflexivity|]. simpl. rewrite IH. reflexivity.
Qed.

Lemma combine_mapping (l : list N) : forall a,
  combine (map fst (mapping_of pinyin a l)) (map pinyin (List.filter is_chinese l))
  = mapping_of pinyin a l.
Proof.
  induction l as [|c l IH]; intros a; [reflexivity|]. simpl.
  destruct (is_chinese c); simpl; rewrite IH; reflexivity.
Qed.

End BufferVariants.

Lemma filter_chinese_all (l : list N) :
  forallb is_chinese (List.filter is_chinese l) = true.
Proof.
  induction l as [|c l IH]; [reflexivity|]. simpl.
  destruct (is_chinese c) eqn:Hc; [simpl; rewrite Hc|]; exact IH.
Qed.

Lemma best_line_step_plain pinyin_all result_lines (line : list N) :
  existsb is_chinese line = false ->
  best_line_step pinyin_all result_lines line = Done (result_lines ++ [line]).
Proof.
  intros H. unfold best_line_step, enumerate.
  destruct (py_not (strip line)); [reflexivity|].
  rewrite (chinese_body_closed (fun _ => []) line 0 [] []). simpl.
  rewrite (proj2 (filter_chinese_nil line) H). reflexivity.
Qed.

Lemma best_line_step_closed pinyin pinyin_all result_lines (line : list N) :
  (forall s, forallb is_chinese s = true ->
             pinyin_all s = map (fun c => [pinyin c]) s) ->
  best_line_step pinyin_all result_lines line
  = Done (result_lines ++ buffer_out pinyin line).
Proof.
  intros Hall. unfold buffer_out.
  destruct (existsb is_chinese line) eqn:H;
    [|apply best_line_step_plain; exact H].
  unfold best_line_step, enumerate.
  rewrite (chinese_line_not_blank line H).
  rewrite (chinese_body_closed pinyin line 0 [] []). simpl.
  destruct (List.filter is_chinese line) as [|c0 cs] eqn:Hf;
    [apply filter_chinese_nil in Hf; congruence|].
  rewrite <- Hf.
  rewrite Hall by apply filter_chinese_all.
  rewrite first_readings_single. simpl.
  rewrite combine_mapping, <- app_assoc. reflexivity.
Qed.

(** X12. When the lookup of a string of qualifying characters gives, for
    each character, the one reading that the lookup of the character alone
    gives, [add_pinyin_preserve_format_best] returns the text that
    [add_pinyin_preserve_format_working] returns. *)
Theorem best_equals_working :
  forall (pinyin : N -> list N) (pinyin_all : list N -> list (list (list N)))
         (text : list N),
    (forall s, forallb is_chinese s = true ->
               pinyin_all s = map (fun c => [pinyin c]) s) ->
    exists out,
      add_pinyin_preserve_format_best pinyin_all text = Done out /\
      add_pinyin_preserve_format_working pinyin text = Done out.
Proof.
  intros pinyin pinyin_all text Hall.
  exists (join_lines (flat_map (buffer_out pinyin) (split_lines text))).
  unfold add_pinyin_preserve_format_best, add_pinyin_preserve_format_working.
  rewrite working_for_lines_closed.
  rewrite (for_each_line_closed (best_line_step pinyin_all) (buffer_out pinyin)).
  - split; reflexivity.
  - apply Forall_forall. intros line _ result_lines.
    apply best_line_step_closed, Hall.
Qed.

Lemma best_equals_working_witness :
  exists out,
    add_pinyin_preserve_format_best (map (fun c => [demo_pinyin c])) ni_hao_world
    = Done out /\
    add_pinyin_preserve_format_working demo_pinyin ni_hao_world = Done out.
Proof.
  apply (best_equals_working demo_pinyin (map (fun c => [demo_pinyin c])) ni_hao_world).
  intros s _. reflexivity.
Defined.

Lemma first_readings_total (pinyin_list : list (list (list N))) :
  Forall (fun p => p <> []) pinyin_list ->
  exists values, first_readings pinyin_list = Done values.
Proof.
  induction 1 as [|p rest Hp _ (values & IH)]; [exists []; reflexivity|].
  simpl. destruct p as [|py readings]; [congruence|].
  rewrite IH. simpl. eauto.
Qed.

Lemma first_readings_empty (pinyin_list : list (list (list N))) :
  [] ∈ pinyin_list -> first_readings pinyin_list = Raise IndexError.
Proof.
  induction pinyin_list as [|p rest IH]; intros Hin; [inversion Hin|].
  simpl. destruct p as [|py readings]; [reflexivity|].
  apply elem_of_cons in Hin as [Heq|Hin]; [discriminate Heq|].
  rewrite (IH Hin). reflexivity.
Qed.

Lemma Forall_combine_fst {A B : Type} (P : A -> Prop) (xs : list A) : forall ys : list B,
  Forall P xs -> Forall (fun e : A * B => P e.1) (combine xs ys).
Proof.
  induction xs as [|x xs IH]; intros ys Hxs; [constructor|].
  inversion Hxs as [|? ? Hx Hrest]; subst.
  destruct ys as [|y ys]; [constructor|].
  simpl. constructor; [exact Hx|apply IH, Hrest].
Qed.

(** X13. In [add_pinyin_preserve_format_best], whatever readings the lookup
    of the string returns and however many, as long as none of its lists is
    empty the annotation line has the length of the line: the slice
    assignments never make the buffer longer or shorter. *)
Theorem best_keeps_length :
  forall (pinyin_all : list N -> list (list (list N)))
         (result_lines : list (list N)) (line : list N),
    existsb is_chinese line = true ->
    Forall (fun p => p <> []) (pinyin_all (List.filter is_chinese line)) ->
    exists pinyin_line,
      best_line_step pinyin_all result_lines line
      = Done (result_lines ++ [pinyin_line; line]) /\
      length pinyin_line = length line.
Proof.
  intros pinyin_all result_lines line H Hreadings.
  destruct (first_readings_total _ Hreadings) as (values & Hvalues).
  exists (fold_left (slice_body line)
            (combine (map fst (mapping_of (fun _ => []) 0 line)) values)
            (repeat Char.space (length line))).
  split.
  - unfold best_line_step, enumerate.
    rewrite (chinese_line_not_blank line H).
    rewrite (chinese_body_closed (fun _ => []) line 0 [] []). simpl.
    destruct (List.filter is_chinese line) as [|c0 cs] eqn:Hf;
      [apply filter_chinese_nil in Hf; congruence|].
    rewrite Hvalues. simpl. rewrite <- app_assoc. reflexivity.
  - apply fold_slice_length; [apply repeat_length|].
    apply (Forall_combine_fst (fun pos => pos <= length line)).
    apply List.Forall_map.
    apply (mapping_of_in_line (fun _ => []) line).
Qed.

Lemma best_keeps_length_witness :
  exists pinyin_line,
    best_line_step (fun s => [[lit "abcdefghijkl"]; [lit "x"; lit "y"]; [lit "z"]])
      [] ni_hao_world
    = Done ([] ++ [pinyin_line; ni_hao_world]) /\
    length pinyin_line = length ni_hao_world.
Proof.
  apply (best_keeps_length
           (fun s => [[lit "abcdefghijkl"]; [lit "x"; lit "y"]; [lit "z"]])
           [] ni_hao_world).
  - reflexivity.
  - repeat constructor; discriminate.
Defined.

(** X14. [add_pinyin_preserve_format_best] takes [p[0]] of every list that
    the lookup of the string returns: when one of them is empty, the line
    raises [IndexError]. *)
Theorem best_empty_reading :
  forall (pinyin_all : list N -> list (list (list N)))
         (result_lines : list (list N)) (line : list N),
    existsb is_chinese line = true ->
    [] ∈ pinyin_all (List.filter is_chinese line) ->
    best_line_step pinyin_all result_lines line = Raise IndexError.
Proof.
  intros pinyin_all result_lines line H Hempty.
  unfold best_line_step, enumerate.
  rewrite (chinese_line_not_blank line H).
  rewrite (chinese_body_closed (fun _ => []) line 0 [] []). simpl.
  destruct (List.filter is_chinese line) as [|c0 cs] eqn:Hf;
    [apply filter_chinese_nil in Hf; congruence|].
  rewrite (first_readings_empty _ Hempty). reflexivity.
Qed.

Lemma best_empty_reading_witness :
  best_line_step (fun s => [[lit "ni"]; []]) [] ni_hao_world = Raise IndexError.
Proof.
  apply (best_empty_reading (fun s => [[lit "ni"]; []]) [] ni_hao_world).
  - reflexivity.
  - apply elem_of_cons. right. apply elem_of_cons. left. reflexivity.
Defined.

(** ** What the variants share *)

Lemma flat_map_plain (out : list N -> list (list N)) (lines : list (list N)) :
  Forall (fun l => out l = [l]) lines -> flat_map out lines = lines.
Proof.
  induction 1 as [|l lines Hl _ IH]; [reflexivity|].
  simpl. rewrite Hl, IH. reflexivity.
Qed.

Lemma annotated_flat_map (out : list N -> list (list N)) (lines : list (list N)) :
  (forall l, out l = [l] \/ exists a, out l = [a; l]) ->
  annotated lines (flat_map out lines).
Proof.
  intros Hout. induction lines as [|l lines IH]; simpl; [constructor|].
  destruct (Hout l) as [->|[a ->]]; simpl.
  - apply annotated_plain, IH.
  - apply annotated_pair, IH.
Qed.

Lemma ljust_out_shape pinyin width l :
  ljust_out pinyin width l = [l] \/ exists a, ljust_out pinyin width l = [a; l].
Proof. unfold ljust_out. destruct (existsb is_chinese l); eauto. Qed.

Lemma buffer_out_shape pinyin l :
  buffer_out pinyin l = [l] \/ exists a, buffer_out pinyin l = [a; l].
Proof. unfold buffer_out. destruct (existsb is_chinese l); eauto. Qed.

Lemma plain_lines_ljust pinyin width text :
  existsb is_chinese text = false ->
  flat_map (ljust_out pinyin width) (split_lines text) = split_lines text.
Proof.
  intros H. apply flat_map_plain.
  eapply Forall_impl; [apply split_lines_chinese, H|].
  simpl. intros l Hl. unfold ljust_out. rewrite Hl. reflexivity.
Qed.

(** X15. [add_pinyin_preserve_format], [..._new], [..._final], [..._best]
    and [..._working] return a text with no character in U+4E00..U+9FFF as
    it is. *)
Theorem variants_plain_document :
  forall (pinyin : N -> list N) (pinyin_all : list N -> list (list (list N)))
         (fuel : nat) (text : list N),
    existsb is_chinese text = false ->
    length text < fuel ->
    add_pinyin_preserve_format pinyin fuel text = Done text /\
    add_pinyin_preserve_format_new pinyin fuel text = Done text /\
    add_pinyin_preserve_format_final pinyin fuel text = Done text /\
    add_pinyin_preserve_format_best pinyin_all text = Done text /\
    add_pinyin_preserve_format_working pinyin text = Done text.
Proof.
  intros pinyin pinyin_all fuel text H Hfuel.
  unfold add_pinyin_preserve_format, add_pinyin_preserve_format_new,
    add_pinyin_preserve_format_final, add_pinyin_preserve_format_best,
    add_pinyin_preserve_format_working.
  rewrite (padded_lines_closed pinyin (first_line_step pinyin fuel) 3 fuel text)
    by (try exact Hfuel; intros; apply first_line_step_closed; assumption).
  rewrite (padded_lines_closed pinyin (new_line_step pinyin fuel) 3 fuel text)
    by (try exact Hfuel; intros; apply new_line_step_closed; assumption).
  rewrite (padded_lines_closed pinyin (final_line_step pinyin fuel) 2 fuel text)
    by (try exact Hfuel; intros; apply final_line_step_closed; assumption).
  rewrite !plain_lines_ljust by exact H.
  rewrite working_for_lines_closed.
  rewrite (for_each_line_closed (best_line_step pinyin_all) (fun l => [l]))
    by (eapply Forall_impl; [apply split_lines_chinese, H|];
        simpl; intros l Hl result_lines; apply best_line_step_plain, Hl).
  rewrite !flat_map_plain.
  - simpl. rewrite join_split. auto.
  - eapply Forall_impl; [apply split_lines_chinese, H|].
    simpl. intros l Hl. unfold buffer_out. rewrite Hl. reflexivity.
  - apply Forall_forall. reflexivity.
Qed.

Lemma variants_plain_document_witness :
  add_pinyin_preserve_format demo_pinyin 9 (lit "a b" ++ Char.newline :: lit " c ")
  = Done (lit "a b" ++ Char.newline :: lit " c ") /\
  add_pinyin_preserve_format_new demo_pinyin 9 (lit "a b" ++ Char.newline :: lit " c ")
  = Done (lit "a b" ++ Char.newline :: lit " c ") /\
  add_pinyin_preserve_format_final demo_pinyin 9 (lit "a b" ++ Char.newline :: lit " c ")
  = Done (lit "a b" ++ Char.newline :: lit " c ") /\
  add_pinyin_preserve_format_best (fun _ => []) (lit "a b" ++ Char.newline :: lit " c ")
  = Done (lit "a b" ++ Char.newline :: lit " c ") /\
  add_pinyin_preserve_format_working demo_pinyin (lit "a b" ++ Char.newline :: lit " c ")
  = Done (lit "a b" ++ Char.newline :: lit " c ").
Proof.
  apply (variants_plain_document demo_pinyin (fun _ => []) 9
           (lit "a b" ++ Char.newline :: lit " c ")).
  - reflexivity.
  - vm_compute. lia.
Defined.

(** X16. [add_pinyin_preserve_format], [..._new], [..._final] and
    [..._working] keep the lines: their [result_lines] are the input lines
    in their order, each once and unchanged, some preceded by one annotation
    line. *)
Theorem variants_keep_lines :
  forall (pinyin : N -> list N) (fuel : nat) (text : list N),
    length text < fuel ->
    (exists result_lines,
       for_each_line (first_line_step pinyin fuel) (split_lines text) []
       = Done result_lines /\
       annotated (split_lines text) result_lines) /\
    (exists result_lines,
       for_each_line (new_line_step pinyin fuel) (split_lines text) []
       = Done result_lines /\
       annotated (split_lines text) result_lines) /\
    (exists result_lines,
       for_each_line (final_line_step pinyin fuel) (split_lines text) []
       = Done result_lines /\
       annotated (split_lines text) result_lines) /\
    (exists result_lines,
       working_for_lines pinyin (split_lines text) [] = Done result_lines /\
       annotated (split_lines text) result_lines).
Proof.
  intros pinyin fuel text Hfuel.
  rewrite (padded_lines_closed pinyin (first_line_step pinyin fuel) 3 fuel text)
    by (try exact Hfuel; intros; apply first_line_step_closed; assumption).
  rewrite (padded_lines_closed pinyin (new_line_step pinyin fuel) 3 fuel text)
    by (try exact Hfuel; intros; apply new_line_step_closed; assumption).
  rewrite (padded_lines_closed pinyin (final_line_step pinyin fuel) 2 fuel text)
    by (try exact Hfuel; intros; apply final_line_step_closed; assumption).
  rewrite working_for_lines_closed.
  repeat split; eexists; (split; [reflexivity|]);
    apply annotated_flat_map; intros l;
    first [apply ljust_out_shape | apply buffer_out_shape].
Qed.

Lemma variants_keep_lines_witness :
  (exists result_lines,
     for_each_line (first_line_step demo_pinyin 12) (split_lines ni_hao_world) []
     = Done result_lines /\
     annotated (split_lines ni_hao_world) result_lines) /\
  (exists result_lines,
     for_each_line (new_line_step demo_pinyin 12) (split_lines ni_hao_world) []
     = Done result_lines /\
     annotated (split_lines ni_hao_world) result_lines) /\
  (exists result_lines,
     for_each_line (final_line_step demo_pinyin 12) (split_lines ni_hao_world) []
     = Done result_lines /\
     annotated (split_lines ni_hao_world) result_lines) /\
  (exists result_lines,
     working_for_lines demo_pinyin (split_lines ni_hao_world) [] = Done result_lines /\
     annotated (split_lines ni_hao_world) result_lines).
Proof.
  apply (variants_keep_lines demo_pinyin 12 ni_hao_world).
  vm_compute. lia.
Defined.

(** ** The variants that pad the tokens *)

Lemma ljust_cells_alphabet pinyin width (line : list N) :
  Forall (space_or_token pinyin line) (flat_map (ljust_cell pinyin width) line).
Proof.
  assert (Hgen : forall part : list N,
             (forall c, c ∈ part -> c ∈ line) ->
             Forall (space_or_token pinyin line)
               (flat_map (ljust_cell pinyin width) part)).
  { induction part as [|c part IH]; intros Hsub; [constructor|].
    simpl. apply Forall_app. split.
    - unfold ljust_cell, ljust. destruct (is_chinese c) eqn:Hc.
      + apply Forall_app. split.
        * apply Forall_forall. intros ch Hch. right. exists c.
          split; [apply Hsub; left|]. auto.
        * apply Forall_forall. intros ch Hch. left.
          apply list_elem_of_In, repeat_spec in Hch. exact Hch.
      + repeat constructor.
    - apply IH. intros c0 Hc0. apply Hsub. right. exact Hc0. }
  apply Hgen. auto.
Qed.

Lemma rstrip_Forall (P : N -> Prop) s : Forall P s -> Forall P (rstrip s).
Proof.
  intros H. destruct (rstrip_suffix s) as (t & Hs & _).
  rewrite Hs in H. apply Forall_app in H as [H _]. exact H.
Qed.

(** X17. The annotation lines of [add_pinyin_preserve_format], [..._new]
    and [..._final] are made of characters of tokens and of spaces only: no
    character of the line, a tab or a punctuation mark say, is copied into
    them.  The first two functions emit the same annotation line. *)
Theorem padded_annotation_alphabet :
  forall (pinyin : N -> list N) (fuel : nat) (result_lines : list (list N))
         (line : list N),
    existsb is_chinese line = true ->
    length line < fuel ->
    exists wide narrow,
      first_line_step pinyin fuel result_lines line
      = Done (result_lines ++ [wide; line]) /\
      new_line_step pinyin fuel result_lines line
      = Done (result_lines ++ [wide; line]) /\
      final_line_step pinyin fuel result_lines line
      = Done (result_lines ++ [narrow; line]) /\
      Forall (space_or_token pinyin line) wide /\
      Forall (space_or_token pinyin line) narrow.
Proof.
  intros pinyin fuel result_lines line H Hfuel.
  exists (rstrip (flat_map (ljust_cell pinyin 3) line)),
         (rstrip (flat_map (ljust_cell pinyin 2) line)).
  rewrite first_line_step_closed, new_line_step_closed, final_line_step_closed
    by exact Hfuel.
  unfold ljust_out. rewrite H.
  repeat split; apply rstrip_Forall, ljust_cells_alphabet.
Qed.

Lemma padded_annotation_alphabet_witness :
  exists wide narrow,
    first_line_step demo_pinyin 4 [] [Char.ni; Char.tab; Char.hao]
    = Done ([] ++ [wide; [Char.ni; Char.tab; Char.hao]]) /\
    new_line_step demo_pinyin 4 [] [Char.ni; Char.tab; Char.hao]
    = Done ([] ++ [wide; [Char.ni; Char.tab; Char.hao]]) /\
    final_line_step demo_pinyin 4 [] [Char.ni; Char.tab; Char.hao]
    = Done ([] ++ [narrow; [Char.ni; Char.tab; Char.hao]]) /\
    Forall (space_or_token demo_pinyin [Char.ni; Char.tab; Char.hao]) wide /\
    Forall (space_or_token demo_pinyin [Char.ni; Char.tab; Char.hao]) narrow.
Proof.
  apply (padded_annotation_alphabet demo_pinyin 4 [] [Char.ni; Char.tab; Char.hao]).
  - reflexivity.
  - simpl. lia.
Defined.

(** ** The variant that spreads the line *)

Section Corrected.

Variable pinyin : char -> str.

Lemma corrected_body_closed (l : list N) : forall pl ol,
  fold_left (corrected_body pinyin) l (pl, ol)
  = (pl ++ flat_map (corrected_cell pinyin) l, ol ++ flat_map spread_cell l).
Proof.
  induction l as [|c l IH]; intros pl ol; simpl.
  - rewrite !app_nil_r. reflexivity.
  - unfold corrected_cell at 1, spread_cell at 1.
    destruct (is_chinese c); rewrite IH, <- !app_assoc; reflexivity.
Qed.

Lemma length_spread (l : list N) :
  length (flat_map spread_cell l) = length l + 5 * length (List.filter is_chinese l).
Proof.
  induction l as [|c l IH]; [reflexivity|].
  simpl. rewrite length_app, IH. unfold spread_cell.
  destruct (is_chinese c); simpl; lia.
Qed.

Lemma length_corrected (l : list N) :
  Forall (fun c => is_chinese c = true -> length (pinyin c) <= 6) l ->
  length (flat_map (corrected_cell pinyin) l)
  = length l + 5 * length (List.filter is_chinese l).
Proof.
  induction 1 as [|c l Hc _ IH]; [reflexivity|].
  simpl. rewrite length_app, IH. unfold corrected_cell, ljust.
  destruct (is_chinese c); simpl; [|lia].
  specialize (Hc eq_refl). rewrite length_app, repeat_length. lia.
Qed.

End Corrected.

Lemma rstrip_fixed s : rstrip s = s <-> ends_tidy s.
Proof.
  unfold ends_tidy. split.
  - intros Hs c Hc. rewrite <- Hs in Hc. exact (rstrip_last s c Hc).
  - induction s as [|c s IH]; intros Htidy; [reflexivity|].
    simpl. destruct s as [|d u].
    + simpl. rewrite (Htidy c eq_refl). reflexivity.
    + rewrite IH by exact Htidy. reflexivity.
Qed.

(** X18. In [add_pinyin_preserve_format_corrected], when no token is longer
    than six characters, the two lines built for a line have the same length
    before trimming and go column by column: the character of index [i]
    is at column [i] plus five for each qualifying character before it in
    the spread line, its token begins at that column of the annotation line
    when it is qualifying, and it is itself at that column of the annotation
    line when it is not. *)
Theorem corrected_aligned :
  forall (pinyin : N -> list N) (result_lines : list (list N)) (line : list N)
         (i : nat) (c : N),
    py_not (strip line) = false ->
    Forall (fun c => is_chinese c = true -> length (pinyin c) <= 6) line ->
    line !! i = Some c ->
    exists pinyin_line original_line,
      fold_left (corrected_body pinyin) line ([], []) = (pinyin_line, original_line) /\
      corrected_line_step pinyin result_lines line
      = (if existsb is_chinese line then result_lines ++ [rstrip pinyin_line]
         else result_lines) ++ [rstrip original_line] /\
      length pinyin_line = length original_line /\
      original_line !! (i + 5 * length (List.filter is_chinese (take i line)))
      = Some c /\
      (is_chinese c = true ->
       take (length (pinyin c))
         (drop (i + 5 * length (List.filter is_chinese (take i line))) pinyin_line)
       = pinyin c) /\
      (is_chinese c = false ->
       pinyin_line !! (i + 5 * length (List.filter is_chinese (take i line)))
       = Some c).
Proof.
  intros pinyin result_lines line i c Hblank Htok Hi.
  pose proof (lookup_lt_Some _ _ _ Hi) as Hlt.
  exists (flat_map (corrected_cell pinyin) line), (flat_map spread_cell line).
  pose proof (corrected_body_closed pinyin line [] []) as Hfold. simpl in Hfold.
  split; [exact Hfold|].
  split; [unfold corrected_line_step; rewrite Hblank, Hfold; reflexivity|].
  split; [rewrite length_corrected, length_spread by exact Htok; reflexivity|].
  assert (Htake : Forall (fun c => is_chinese c = true -> length (pinyin c) <= 6)
                    (take i line)).
  { rewrite <- (take_drop i line) in Htok. apply Forall_app in Htok as [Ht _].
    exact Ht. }
  assert (Hk1 : i + 5 * length (List.filter is_chinese (take i line))
                = length (flat_map spread_cell (take i line)))
    by (rewrite length_spread, length_take_le by lia; reflexivity).
  assert (Hk2 : i + 5 * length (List.filter is_chinese (take i line))
                = length (flat_map (corrected_cell pinyin) (take i line)))
    by (rewrite length_corrected, length_take_le by (try exact Htake; lia);
        reflexivity).
  assert (Hol : flat_map spread_cell line
                = flat_map spread_cell (take i line)
                  ++ spread_cell c ++ flat_map spread_cell (drop (S i) line))
    by (rewrite <- (take_drop_middle line i c Hi) at 1;
        rewrite flat_map_app; reflexivity).
  assert (Hpl : flat_map (corrected_cell pinyin) line
                = flat_map (corrected_cell pinyin) (take i line)
                  ++ corrected_cell pinyin c
                  ++ flat_map (corrected_cell pinyin) (drop (S i) line))
    by (rewrite <- (take_drop_middle line i c Hi) at 1;
        rewrite flat_map_app; reflexivity).
  split; [|split].
  - rewrite Hol, Hk1, lookup_app_r by lia. rewrite Nat.sub_diag.
    unfold spread_cell. destruct (is_chinese c); reflexivity.
  - intros Hc. rewrite Hpl, Hk2, drop_app_length.
    unfold corrected_cell, ljust. rewrite Hc, <- !app_assoc.
    apply take_app_length.
  - intros Hc. rewrite Hpl, Hk2, lookup_app_r by lia. rewrite Nat.sub_diag.
    unfold corrected_cell. rewrite Hc. reflexivity.
Qed.

Lemma corrected_aligned_witness :
  exists pinyin_line original_line,
    fold_left (corrected_body demo_pinyin) ni_hao_world ([], [])
    = (pinyin_line, original_line) /\
    corrected_line_step demo_pinyin [] ni_hao_world
    = (if existsb is_chinese ni_hao_world then [] ++ [rstrip pinyin_line] else [])
      ++ [rstrip original_line] /\
    length pinyin_line = length original_line /\
    original_line !! (1 + 5 * length (List.filter is_chinese (take 1 ni_hao_world)))
    = Some Char.hao /\
    (is_chinese Char.hao = true ->
     take (length (demo_pinyin Char.hao))
       (drop (1 + 5 * length (List.filter is_chinese (take 1 ni_hao_world))) pinyin_line)
     = demo_pinyin Char.hao) /\
    (is_chinese Char.hao = false ->
     pinyin_line !! (1 + 5 * length (List.filter is_chinese (take 1 ni_hao_world)))
     = Some Char.hao).
Proof.
  apply (corrected_aligned demo_pinyin [] ni_hao_world 1 Char.hao).
  - reflexivity.
  - unfold ni_hao_world. simpl.
    repeat (constructor; [intros _; vm_compute; lia|]). constructor.
  - reflexivity.
Defined.

(** X19. [add_pinyin_preserve_format_corrected] does not keep a line that
    has no qualifying character and is not blank: it emits the line with
    its trailing whitespace removed, which is the line itself only when the
    line ends in no whitespace character. *)
Theorem corrected_trims_line :
  forall (pinyin : N -> list N) (result_lines : list (list N)) (line : list N),
    existsb is_chinese line = false ->
    py_not (strip line) = false ->
    corrected_line_step pinyin result_lines line = result_lines ++ [rstrip line] /\
    (rstrip line = line <-> ends_tidy line).
Proof.
  intros pinyin result_lines line H Hblank.
  split; [|apply rstrip_fixed].
  assert (Hsame : flat_map spread_cell line = line).
  { clear Hblank. induction line as [|c line IH]; [reflexivity|].
    simpl in H. apply orb_false_iff in H as [Hc Hline].
    simpl. unfold spread_cell at 1. rewrite Hc, (IH Hline). reflexivity. }
  unfold corrected_line_step.
  rewrite Hblank, corrected_body_closed, H, Hsame. reflexivity.
Qed.

Lemma corrected_trims_line_witness :
  corrected_line_step demo_pinyin [] (lit "hello  ") = [] ++ [rstrip (lit "hello  ")] /\
  (rstrip (lit "hello  ") = lit "hello  " <-> ends_tidy (lit "hello  ")).
Proof.
  apply (corrected_trims_line demo_pinyin [] (lit "hello  ")); reflexivity.
Defined.

(** ** The variant that pads to two *)

Lemma ljust_long (s : list N) width : width <= length s -> ljust s width = s.
Proof.
  intros H. unfold ljust. replace (width - length s) with 0 by lia.
  apply app_nil_r.
Qed.

(** X20. In [add_pinyin_preserve_format_final], when every token of the
    line has at least two characters, nothing separates the tokens: the
    annotation line is, before trimming, the tokens of the qualifying
    characters and one space for every other character, one after the
    other. *)
Theorem final_no_padding :
  forall (pinyin : N -> list N) (fuel : nat) (result_lines : list (list N))
         (line : list N),
    existsb is_chinese line = true ->
    length line < fuel ->
    Forall (fun c => is_chinese c = true -> 2 <= length (pinyin c)) line ->
    final_line_step pinyin fuel result_lines line
    = Done (result_lines
            ++ [rstrip (flat_map (fun c => if is_chinese c then pinyin c
                                           else [Char.space]) line);
                line]).
Proof.
  intros pinyin fuel result_lines line H Hfuel Hlong.
  rewrite final_line_step_closed by exact Hfuel.
  unfold ljust_out. rewrite H. do 4 f_equal.
  clear H Hfuel. induction Hlong as [|c line Hc _ IH]; [reflexivity|].
  simpl. rewrite IH. f_equal. unfold ljust_cell.
  destruct (is_chinese c); [apply ljust_long, Hc|]; reflexivity.
Qed.

Lemma final_no_padding_witness :
  final_line_step demo_pinyin 10 [] ni_hao_world
  = Done ([]
          ++ [rstrip (flat_map (fun c => if is_chinese c then demo_pinyin c
                                         else [Char.space]) ni_hao_world);
              ni_hao_world]).
Proof.
  apply (final_no_padding demo_pinyin 10 [] ni_hao_world).
  - reflexivity.
  - vm_compute. lia.
  - unfold ni_hao_world. simpl.
    repeat (constructor; [intros Hc; first [discriminate Hc | vm_compute; lia]|]).
    constructor.
Defined.

(** ** Runs of the variants *)

Example first_ni_hao_world :
  add_pinyin_preserve_format demo_pinyin 10 ni_hao_world
  = Done ([0x6e%N; Char.i_caron; Char.space; 0x68%N; Char.a_caron; 0x6f%N]
          ++ Char.newline :: ni_hao_world).
Proof. vm_compute. reflexivity. Qed.

Example final_ni_hao_world :
  add_pinyin_preserve_format_final demo_pinyin 10 ni_hao_world
  = Done ([0x6e%N; Char.i_caron; 0x68%N; Char.a_caron; 0x6f%N]
          ++ Char.newline :: ni_hao_world).
Proof. vm_compute. reflexivity. Qed.

Example corrected_ni_hao_world :
  add_pinyin_preserve_format_corrected demo_pinyin ni_hao_world
  = [0x6e%N; Char.i_caron] ++ repeat Char.space 4
    ++ [0x68%N; Char.a_caron; 0x6f%N] ++ repeat Char.space 3 ++ lit ", world"
    ++ Char.newline
    :: Char.ni :: repeat Char.space 5 ++ Char.hao :: repeat Char.space 5
    ++ lit ", world".
Proof. vm_compute. reflexivity. Qed.

Example best_ni_hao_world :
  add_pinyin_preserve_format_best (map (fun c => [demo_pinyin c])) ni_hao_world
  = Done ([0x6e%N; 0x68%N; Char.a_caron; 0x6f%N] ++ repeat Char.space 5
          ++ Char.newline :: ni_hao_world).
Proof. vm_compute. reflexivity. Qed.
